(** * Lead enrichment pipeline: a shallow embedding of [src/lib/runEnrichment.ts]
      and of [validateRequest] in [src/app/api/enrich-leads/route.ts].

    Text is modelled by [string], one [ascii] per UTF-16 code unit; the model
    covers the code units 0..255.  The chat backend, the scoring model, the
    provider resolution and the random source are the environment: a record
    of oracles, indexed by the number of effects performed so far.  Every
    effect is appended to a trace, the state of the small state-and-exception
    monad in which the asynchronous functions are written.  A response body
    is a finite list of chunks; logging is not modelled. *)

From stdpp Require Import gmap strings list pretty.
From Stdlib Require Import Ascii QArith Lia.
From Stdlib Require SpecFloat.

#[local] Set Warnings "-register-all".

(** ** Text: the [String.prototype] methods the source calls *)

Module JsString.
#[local] Open Scope N_scope.

Definition codeOf (c : ascii) : N := N_of_ascii c.

(** WhiteSpace and LineTerminator code units below 256: what [trim] strips
    and what [\s] matches. *)
Definition isSpace (c : ascii) : bool :=
  let n := codeOf c in
  ((9 <=? n) && (n <=? 13)) || (n =? 32) || (n =? 160).

Definition isDigit (c : ascii) : bool :=
  let n := codeOf c in (48 <=? n) && (n <=? 57).

Fixpoint trimStart (s : string) : string :=
  match s with
  | String c s' => if isSpace c then trimStart s' else s
  | EmptyString => EmptyString
  end.

Definition trimEnd (s : string) : string :=
  String.rev (trimStart (String.rev s)).

Definition trim (s : string) : string := trimEnd (trimStart s).

Definition lowerChar (c : ascii) : ascii :=
  let n := codeOf c in
  if ((65 <=? n) && (n <=? 90))
     || ((192 <=? n) && (n <=? 222) && negb (n =? 215))
  then ascii_of_N (n + 32) else c.

Fixpoint toLowerCase (s : string) : string :=
  match s with
  | String c s' => String (lowerChar c) (toLowerCase s')
  | EmptyString => EmptyString
  end.

(** [s.split(sep)] for a separator of one code unit. *)
Fixpoint split (sep : ascii) (s : string) : list string :=
  match s with
  | EmptyString => [EmptyString]
  | String c s' =>
      if Ascii.eqb c sep then EmptyString :: split sep s'
      else match split sep s' with
           | x :: xs => String c x :: xs
           | [] => [String c EmptyString]
           end
  end.

Fixpoint startsWith (p s : string) : bool :=
  match p, s with
  | EmptyString, _ => true
  | String a p', String b s' => Ascii.eqb a b && startsWith p' s'
  | String _ _, EmptyString => false
  end.

Fixpoint includes (sub s : string) : bool :=
  startsWith sub s ||
  match s with
  | String _ s' => includes sub s'
  | EmptyString => false
  end.

Fixpoint take (n : nat) (s : string) : string :=
  match n, s with
  | S n', String c s' => String c (take n' s')
  | _, _ => EmptyString
  end.

Fixpoint drop (n : nat) (s : string) : string :=
  match n, s with
  | S n', String _ s' => drop n' s'
  | _, _ => s
  end.

(** [xs.join(sep)] on an array of strings. *)
Fixpoint join (sep : string) (xs : list string) : string :=
  match xs with
  | [] => EmptyString
  | [x] => x
  | x :: xs' => x +:+ sep +:+ join sep xs'
  end.

(** [xs.indexOf(x)]: the first index holding [x], [None] for -1. *)
Fixpoint indexOf (x : string) (xs : list string) : option nat :=
  match xs with
  | [] => None
  | y :: ys => if String.eqb y x then Some 0%nat
               else option_map S (indexOf x ys)
  end.

End JsString.

(** ** Regular expressions: a backtracking matcher for the literals in the source *)

Module Regex.
Import JsString.
#[local] Open Scope N_scope.

Inductive regex :=
| Eps
| Class (p : ascii -> bool)
| Seq (r1 r2 : regex)
| Alt (r1 r2 : regex)
| Star (greedy : bool) (r : regex)
| Group (i : nat) (r : regex)
| Bol
| Eol.

Definition Chr (c : ascii) : regex := Class (Ascii.eqb c).

Fixpoint Lit (s : string) : regex :=
  match s with
  | EmptyString => Eps
  | String c s' => Seq (Chr c) (Lit s')
  end.

Fixpoint Cat (rs : list regex) : regex :=
  match rs with
  | [] => Eps
  | [r] => r
  | r :: rs' => Seq r (Cat rs')
  end.

Definition Plus (greedy : bool) (r : regex) : regex := Seq r (Star greedy r).
Definition Opt (r : regex) : regex := Alt r Eps.

(** [\s], [\d], [.] (no line terminator), [[\s\S]], [[^\s@]]. *)
Definition space : regex := Class isSpace.
Definition digit : regex := Class isDigit.
Definition dot : regex :=
  Class (fun c => negb ((codeOf c =? 10) || (codeOf c =? 13))).
Definition anyChar : regex := Class (fun _ => true).
Definition notSpaceAt : regex :=
  Class (fun c => negb (isSpace c || Ascii.eqb c "@")).

Abbreviation captures := (gmap nat string).

(** The text between two suffixes of the input. *)
Definition consumed (s s' : string) : string :=
  take (String.length s - String.length s') s.

Definition outcome : Type := option (string * captures).
Definition continuation : Type := string -> captures -> outcome.

(** The iterations of a quantifier: [step] matches the body once, [k] is
    what follows.  A greedy quantifier tries one more iteration before
    [k], a lazy one after it; an iteration that consumes nothing is
    refused.  No input needs more iterations than it has characters. *)
Fixpoint iterate (greedy : bool)
    (step : string -> captures -> continuation -> outcome)
    (k : continuation) (fuel : nat) (s : string) (c : captures)
    {struct fuel} : outcome :=
  match fuel with
  | O => k s c
  | S fuel' =>
      let again (_ : unit) :=
        step s c (fun s' c' =>
          if (String.length s' <? String.length s)%nat
          then iterate greedy step k fuel' s' c' else None) in
      if greedy then
        match again () with Some x => Some x | None => k s c end
      else
        match k s c with Some x => Some x | None => again () end
  end.

(** [rmatch n r s c k]: match [r] at the suffix [s] of an input of length
    [n], then continue with [k]; the alternatives are tried in the order
    of the backtracking semantics. *)
Fixpoint rmatch (n : nat) (r : regex) (s : string) (c : captures)
    (k : continuation) {struct r} : outcome :=
  match r with
  | Eps => k s c
  | Class p =>
      match s with
      | String a s' => if p a then k s' c else None
      | EmptyString => None
      end
  | Seq r1 r2 => rmatch n r1 s c (fun s' c' => rmatch n r2 s' c' k)
  | Alt r1 r2 =>
      match rmatch n r1 s c k with
      | Some x => Some x
      | None => rmatch n r2 s c k
      end
  | Star greedy r1 =>
      iterate greedy (rmatch n r1) k (String.length s) s c
  | Group i r1 =>
      rmatch n r1 s c (fun s' c' => k s' (<[i := consumed s s']> c'))
  | Bol => if (String.length s =? n)%nat then k s c else None
  | Eol => match s with EmptyString => k s c | _ => None end
  end.

(** The continuation at the end of the pattern. *)
Definition accept : continuation := fun s c => Some (s, c).

Record matched := { whole : string; groups : captures }.

Fixpoint search (n : nat) (r : regex) (s : string) : option matched :=
  match rmatch n r s ∅ accept with
  | Some (s', c) => Some {| whole := consumed s s'; groups := c |}
  | None =>
      match s with
      | String _ s' => search n r s'
      | EmptyString => None
      end
  end.

(** [text.match(r)] for a regular expression without the [g] flag. *)
Definition exec (r : regex) (text : string) : option matched :=
  search (String.length text) r text.

(** [r.test(text)]. *)
Definition test (r : regex) (text : string) : bool :=
  match exec r text with Some _ => true | None => false end.

End Regex.

(** ** Values that can be thrown, and the outcome of a call *)

Module Js.

(** A thrown value as [toErrorString] tells them apart: an instance of
    [Error] with its message, a string, or any other value with its
    truthiness and the text [JSON.stringify] (or [String]) gives for it. *)
Inductive thrown :=
| JsError (message : string)
| JsStringValue (s : string)
| JsOtherValue (truthy : bool) (repr : string).

Inductive result (A : Type) :=
| Ok (a : A)
| Throw (e : thrown).
Arguments Ok {A} a.
Arguments Throw {A} e.

Definition isOk {A} (r : result A) : bool :=
  match r with Ok _ => true | Throw _ => false end.

End Js.

(** ** JSON values and [JSON.parse] *)

Module Json.
Import JsString Js.
#[local] Open Scope N_scope.

Inductive json :=
| JNull
| JBool (b : bool)
| JNum (lexeme : string)
| JStr (s : string)
| JArr (xs : list json)
| JObj (o : gmap string json).

Definition quote : ascii := ascii_of_N 34.
Definition backslash : ascii := ascii_of_N 92.

Definition isWs (c : ascii) : bool :=
  let n := codeOf c in (n =? 32) || (n =? 9) || (n =? 10) || (n =? 13).

Fixpoint skipWs (s : string) : string :=
  match s with
  | String c s' => if isWs c then skipWs s' else s
  | EmptyString => EmptyString
  end.

Definition hexVal (c : ascii) : option N :=
  let n := codeOf c in
  if (48 <=? n) && (n <=? 57) then Some (n - 48)
  else if (65 <=? n) && (n <=? 70) then Some (n - 55)
  else if (97 <=? n) && (n <=? 102) then Some (n - 87)
  else None.

(** The code unit of [\uXXXX]; one above 00FF is outside the alphabet of
    the model and the text is not accepted. *)
Definition unicodeEscape (a b c d : ascii) : option ascii :=
  match hexVal a, hexVal b, hexVal c, hexVal d with
  | Some x, Some y, Some z, Some w =>
      let n := ((x * 16 + y) * 16 + z) * 16 + w in
      if n <? 256 then Some (ascii_of_N n) else None
  | _, _, _, _ => None
  end.

Definition simpleEscape (e : ascii) : option ascii :=
  if Ascii.eqb e quote then Some quote
  else if Ascii.eqb e backslash then Some backslash
  else if Ascii.eqb e "/" then Some "/"%char
  else if Ascii.eqb e "b" then Some (ascii_of_N 8)
  else if Ascii.eqb e "f" then Some (ascii_of_N 12)
  else if Ascii.eqb e "n" then Some (ascii_of_N 10)
  else if Ascii.eqb e "r" then Some (ascii_of_N 13)
  else if Ascii.eqb e "t" then Some (ascii_of_N 9)
  else None.

(** The characters of a string literal after its opening quote: the
    decoded text and what follows the closing quote. *)
Fixpoint parseChars (s : string) : option (string * string) :=
  match s with
  | EmptyString => None
  | String c s' =>
      if Ascii.eqb c quote then Some (EmptyString, s')
      else if Ascii.eqb c backslash then
        match s' with
        | String e s'' =>
            if Ascii.eqb e "u" then
              match s'' with
              | String h1 (String h2 (String h3 (String h4 s3))) =>
                  match unicodeEscape h1 h2 h3 h4, parseChars s3 with
                  | Some u, Some (body, rest) => Some (String u body, rest)
                  | _, _ => None
                  end
              | _ => None
              end
            else
              match simpleEscape e, parseChars s'' with
              | Some u, Some (body, rest) => Some (String u body, rest)
              | _, _ => None
              end
        | EmptyString => None
        end
      else if codeOf c <? 32 then None
      else
        match parseChars s' with
        | Some (body, rest) => Some (String c body, rest)
        | None => None
        end
  end.

Fixpoint spanDigits (s : string) : string * string :=
  match s with
  | String c s' =>
      if isDigit c then let '(ds, rest) := spanDigits s' in (String c ds, rest)
      else (EmptyString, s)
  | EmptyString => (EmptyString, EmptyString)
  end.

(** A number: an optional minus, an integer part without a leading zero,
    an optional fraction, an optional exponent; the numeral is kept as
    written. *)
Definition parseNumber (s : string) : option (string * string) :=
  let '(sign, s1) :=
    match s with
    | String c r => if Ascii.eqb c "-" then ("-", r) else (EmptyString, s)
    | EmptyString => (EmptyString, s)
    end in
  let int :=
    match s1 with
    | String c r =>
        if Ascii.eqb c "0" then Some ("0", r)
        else if isDigit c then
          let '(ds, rest) := spanDigits r in Some (String c ds, rest)
        else None
    | EmptyString => None
    end in
  match int with
  | None => None
  | Some (i, s2) =>
      let frac :=
        match s2 with
        | String c r =>
            if Ascii.eqb c "." then
              match spanDigits r with
              | (EmptyString, _) => None
              | (ds, rest) => Some (String c ds, rest)
              end
            else Some (EmptyString, s2)
        | EmptyString => Some (EmptyString, s2)
        end in
      match frac with
      | None => None
      | Some (f, s3) =>
          let exp :=
            match s3 with
            | String c r =>
                if Ascii.eqb c "e" || Ascii.eqb c "E" then
                  let '(sg, r1) :=
                    match r with
                    | String d r' =>
                        if Ascii.eqb d "+" || Ascii.eqb d "-"
                        then (String d EmptyString, r')
                        else (EmptyString, r)
                    | EmptyString => (EmptyString, r)
                    end in
                  match spanDigits r1 with
                  | (EmptyString, _) => None
                  | (ds, rest) => Some (String c sg +:+ ds, rest)
                  end
                else Some (EmptyString, s3)
            | EmptyString => Some (EmptyString, s3)
            end in
          match exp with
          | None => None
          | Some (e, s4) => Some (sign +:+ i +:+ f +:+ e, s4)
          end
      end
  end.

Definition parseLiteral (word : string) (v : json) (s : string)
    : option (json * string) :=
  if startsWith word s
  then Some (v, drop (String.length word) s) else None.

(** One JSON value at the head of [s] (after white space) and the rest of
    the text; [fuel] bounds the nesting depth. *)
Fixpoint parseValue (fuel : nat) (s : string) : option (json * string) :=
  match fuel with
  | O => None
  | S fuel' =>
      match skipWs s with
      | EmptyString => None
      | String c r as s0 =>
          if Ascii.eqb c "{" then
            match skipWs r with
            | EmptyString => None
            | String c1 r1 as r0 =>
                if Ascii.eqb c1 "}" then Some (JObj ∅, r1)
                else
                  (fix members (n : nat) (s : string) (o : gmap string json)
                     {struct n} : option (json * string) :=
                     match n with
                     | O => None
                     | S n' =>
                         match skipWs s with
                         | String q s1 =>
                             if Ascii.eqb q quote then
                               match parseChars s1 with
                               | Some (key, s2) =>
                                   match skipWs s2 with
                                   | String colon s3 =>
                                       if Ascii.eqb colon ":" then
                                         match parseValue fuel' s3 with
                                         | Some (v, s4) =>
                                             match skipWs s4 with
                                             | String d s5 =>
                                                 if Ascii.eqb d ","
                                                 then members n' s5 (<[key := v]> o)
                                                 else if Ascii.eqb d "}"
                                                 then Some (JObj (<[key := v]> o), s5)
                                                 else None
                                             | EmptyString => None
                                             end
                                         | None => None
                                         end
                                       else None
                                   | EmptyString => None
                                   end
                               | None => None
                               end
                             else None
                         | EmptyString => None
                         end
                     end) (String.length r0) r0 ∅
            end
          else if Ascii.eqb c "[" then
            match skipWs r with
            | EmptyString => None
            | String c1 r1 as r0 =>
                if Ascii.eqb c1 "]" then Some (JArr [], r1)
                else
                  (fix elements (n : nat) (s : string) (acc : list json)
                     {struct n} : option (json * string) :=
                     match n with
                     | O => None
                     | S n' =>
                         match parseValue fuel' s with
                         | Some (v, s1) =>
                             match skipWs s1 with
                             | String d s2 =>
                                 if Ascii.eqb d ","
                                 then elements n' s2 (acc ++ [v])%list
                                 else if Ascii.eqb d "]"
                                 then Some (JArr (acc ++ [v])%list, s2)
                                 else None
                             | EmptyString => None
                             end
                         | None => None
                         end
                     end) (String.length r0) r0 []
            end
          else if Ascii.eqb c quote then
            match parseChars r with
            | Some (body, rest) => Some (JStr body, rest)
            | None => None
            end
          else if Ascii.eqb c "t" then parseLiteral "true" (JBool true) s0
          else if Ascii.eqb c "f" then parseLiteral "false" (JBool false) s0
          else if Ascii.eqb c "n" then parseLiteral "null" JNull s0
          else
            match parseNumber s0 with
            | Some (lexeme, rest) => Some (JNum lexeme, rest)
            | None => None
            end
      end
  end.

(** [JSON.parse(text)]: [None] stands for the [SyntaxError] it throws. *)
Definition parse (text : string) : option json :=
  match parseValue (S (String.length text)) text with
  | Some (v, rest) =>
      match skipWs rest with
      | EmptyString => Some v
      | String _ _ => None
      end
  | None => None
  end.

(** Texts are written below with an apostrophe wherever the JSON text has
    a double quote. *)
Fixpoint dq (s : string) : string :=
  match s with
  | String c s' => String (if Ascii.eqb c "'" then quote else c) (dq s')
  | EmptyString => EmptyString
  end.

End Json.

(** ** Coercions of the language on JSON values *)

Module Coerce.
Import JsString Js Json.
#[local] Open Scope N_scope.

(** [Number::toString] needs the double a numeral denotes; it is a
    parameter [numberToString] of the definitions that reach it. *)
Section WithNumbers.
Variable numberToString : string -> string.

(** [ToString(v)], which throws for some objects.  An array joins its
    elements with a comma, [null] elements giving the empty text.  An
    object is converted by the inherited [toString], unless it has a
    property of that name of its own: a parsed value is no function, the
    inherited [valueOf] returns the object itself, and the conversion
    throws a [TypeError]. *)
Fixpoint toString (v : json) : result string :=
  match v with
  | JNull => Ok "null"
  | JBool true => Ok "true"
  | JBool false => Ok "false"
  | JNum lexeme => Ok (numberToString lexeme)
  | JStr s => Ok s
  | JArr xs =>
      match (fix each (l : list json) : result (list string) :=
               match l with
               | [] => Ok []
               | x :: l' =>
                   match (match x with
                          | JNull => Ok EmptyString
                          | _ => toString x
                          end) with
                   | Ok s =>
                       match each l' with
                       | Ok ss => Ok (s :: ss)
                       | Throw e => Throw e
                       end
                   | Throw e => Throw e
                   end
               end) xs with
      | Ok ss => Ok (join "," ss)
      | Throw e => Throw e
      end
  | JObj o =>
      match o !! "toString" with
      | Some _ => Throw (JsError "Cannot convert object to primitive value")
      | None => Ok "[object Object]"
      end
  end.

(** [ToString] of a property that may be absent ([undefined]). *)
Definition toStringProp (v : option json) : result string :=
  match v with
  | Some x => toString x
  | None => Ok "undefined"
  end.

(** [ToBoolean(v)]: zero is the number printed as [0]. *)
Definition truthy (v : json) : bool :=
  match v with
  | JNull => false
  | JBool b => b
  | JNum lexeme => negb (String.eqb (numberToString lexeme) "0")
  | JStr s => negb (String.eqb s EmptyString)
  | JArr _ | JObj _ => true
  end.

Definition truthyProp (v : option json) : bool :=
  match v with
  | Some x => truthy x
  | None => false
  end.
End WithNumbers.

(** V8's message for a property read on [null] or [undefined]. *)
Definition cannotRead (what prop : string) : thrown :=
  JsError ("Cannot read properties of " +:+ what
           +:+ " (reading '" +:+ prop +:+ "')").

(** [v.prop] for the property names used in the source, none of which is
    inherited from a prototype: only an object has them; [null] throws. *)
Definition getProp (v : json) (prop : string) : result (option json) :=
  match v with
  | JNull => Throw (cannotRead "null" prop)
  | JObj o => Ok (o !! prop)
  | _ => Ok None
  end.

(** [v === s] for a string literal [s]. *)
Definition isString (v : option json) (s : string) : bool :=
  match v with
  | Some (JStr x) => String.eqb x s
  | _ => false
  end.

(** The [SyntaxError] of [JSON.parse]; its message is never observed. *)
Definition syntaxError : thrown := JsError "Unexpected token in JSON".

Definition JSON_parse (text : string) : result json :=
  match parse text with
  | Some v => Ok v
  | None => Throw syntaxError
  end.

(** *** [parseFloat] *)

(** A double: not a number, a finite double by its exact value, or an
    infinity.  The two zeros are not told apart. *)
Inductive number :=
| NaN
| Num (q : Q)
| Infinity (negative : bool).

Definition digitsValue (ds : string) : N :=
  (fix go (s : string) (acc : N) : N :=
     match s with
     | String c s' => go s' (10 * acc + (codeOf c - 48))
     | EmptyString => acc
     end) ds 0.

(** The double nearest to [mantissa * 10 ^ scale], ties going to the even
    mantissa, as the Standard Library specifies binary64: the product, an
    integer, is rounded; the quotient is rounded once. *)
Definition nearestDouble (mantissa scale : Z) : SpecFloat.spec_float :=
  match mantissa, scale with
  | Zpos m, Zneg p =>
      SpecFloat.SFdiv 53 1024 (SpecFloat.S754_finite false m 0)
        (SpecFloat.S754_finite false (Pos.pow 10 p) 0)
  | _, _ => SpecFloat.binary_normalize 53 1024 (mantissa * 10 ^ scale) 0 false
  end.

(** The number that the double [x] is, with the sign [neg]. *)
Definition numberOf (neg : bool) (x : SpecFloat.spec_float) : number :=
  match x with
  | SpecFloat.S754_zero _ => Num 0
  | SpecFloat.S754_infinity _ => Infinity neg
  | SpecFloat.S754_nan => NaN
  | SpecFloat.S754_finite _ m e =>
      let q :=
        match e with
        | Zneg p => (Zpos m # Pos.pow 2 p)%Q
        | _ => inject_Z (Zpos m * 2 ^ e)
        end in
      Num (Qred (if neg then - q else q))
  end.

(** The exponent part at the head of [s], when there is one. *)
Definition exponentOf (s : string) : Z :=
  match s with
  | String c r =>
      if Ascii.eqb c "e" || Ascii.eqb c "E" then
        let '(neg, r1) :=
          match r with
          | String d r' =>
              if Ascii.eqb d "-" then (true, r')
              else if Ascii.eqb d "+" then (false, r')
              else (false, r)
          | EmptyString => (false, r)
          end in
        match spanDigits r1 with
        | (EmptyString, _) => 0%Z
        | (ds, _) =>
            let v := Z.of_N (digitsValue ds) in if neg then (- v)%Z else v
        end
      else 0%Z
  | EmptyString => 0%Z
  end.

Definition parseFloat (text : string) : number :=
  let s := trimStart text in
  let '(neg, s1) :=
    match s with
    | String c r =>
        if Ascii.eqb c "-" then (true, r)
        else if Ascii.eqb c "+" then (false, r)
        else (false, s)
    | EmptyString => (false, s)
    end in
  if startsWith "Infinity" s1 then Infinity neg
  else
    let '(ip, s2) := spanDigits s1 in
    let '(fp, s3) :=
      match s2 with
      | String c r =>
          if Ascii.eqb c "." then spanDigits r else (EmptyString, s2)
      | EmptyString => (EmptyString, s2)
      end in
    if String.eqb (ip +:+ fp) EmptyString then NaN
    else
      let mantissa := Z.of_N (digitsValue (ip +:+ fp)) in
      let scale := (exponentOf s3 - Z.of_nat (String.length fp))%Z in
      numberOf neg (nearestDouble mantissa scale).

End Coerce.

(** ** [src/lib/runEnrichment.ts] *)

Module RunEnrichment.
Import JsString Regex Js Json Coerce.
#[local] Open Scope N_scope.

Definition LF : string := String (ascii_of_N 10) EmptyString.

(** *** Types *)

(** [ChatModelProvider] and [EmbeddingModelProvider] have the same shape. *)
Record ModelProvider := { name : string; provider : string }.

Record EnrichmentResult := { question : string; answer : string }.

(** The JSON body of the POST to [/api/chat] (lines 390-411). *)
Record ChatRequest := {
  rq_content : string;
  rq_messageId : string;
  rq_chatId : string;
  rq_focusMode : string;
  rq_optimizationMode : string;
  rq_history : list (string * string);
  rq_chatModel : ModelProvider;
  rq_embeddingModel : ModelProvider;
  rq_systemInstructions : option string
}.

(** What the reader of a response body delivers: the decoded text of each
    chunk, then the end of the stream or a rejected read. *)
Record Stream := { chunks : list string; failure : option thrown }.

Record Response := {
  ok : bool;
  status : N;
  statusText : string;
  text : result string;
  body : option Stream
}.

Record ScoreReport := { sr_reason : string; sr_score : number }.

(** The outcome of one lead (return type of [processLeadEnrichment]). *)
Record Outcome := {
  email : string;
  company : string;
  chatId : string;
  enrichmentData : list EnrichmentResult;
  error : option string;
  score : option number;
  reason : option string;
  structuredFields : option json
}.

Record LeadEnrichmentParams := {
  emails : list string;
  chatModelProvider : option ModelProvider;
  embeddingModelProvider : option ModelProvider;
  focusMode : option string;
  optimizationMode : option string;
  systemInstructions : option string
}.

Record LeadEnrichmentResponse := {
  success : bool;
  results : list Outcome;
  errors : list string
}.

(** *** Effects *)

Inductive event :=
| RandomBytes (n : nat)
| FetchChat (request : ChatRequest)
| ResolveProviders
| Generate (prompt : string)
| Sleep (ms : N).

(** The environment; the first argument of an oracle is the number of
    effects performed before the call. *)
Record Env := {
  (** [crypto.randomBytes(n).toString('hex')] *)
  randomHex : nat -> nat -> string;
  (** [fetch] of [/api/chat]: a response, or a rejection *)
  chatApi : nat -> ChatRequest -> result Response;
  (** [configureModelProviders] (lines 244-368), which depends on the
      answer of [/api/models] only *)
  resolveProviders :
    nat -> option ModelProvider -> option ModelProvider ->
    result (ModelProvider * ModelProvider);
  (** one [gemini-2.5-flash] exchange: the text of the response to a
      prompt, or a rejection *)
  generateText : nat -> string -> result string;
  numberToString : string -> string;
  (** the fixed text of the scoring prompt before the company data
      (lines 76-135), whose characters are outside the alphabet *)
  scoreRubric : string
}.

Definition trace := list event.

Definition M (A : Type) : Type := trace -> result A * trace.

Definition ret {A} (a : A) : M A := fun t => (Ok a, t).

Definition throw {A} (e : thrown) : M A := fun t => (Throw e, t).

Definition bind {A B} (m : M A) (k : A -> M B) : M B :=
  fun t =>
    match m t with
    | (Ok a, t') => k a t'
    | (Throw e, t') => (Throw e, t')
    end.

(** [try { m } catch (e) { handler e }] *)
Definition tryCatch {A} (m : M A) (handler : thrown -> M A) : M A :=
  fun t =>
    match m t with
    | (Ok a, t') => (Ok a, t')
    | (Throw e, t') => handler e t'
    end.

Definition liftResult {A} (r : result A) : M A := fun t => (r, t).

(** Perform the effect [ev], whose outcome the oracle gives. *)
Definition perform {A} (ev : event) (outcome : nat -> result A) : M A :=
  fun t => (outcome (length t), (t ++ [ev])%list).

Notation "'let*' x ':=' m 'in' k" := (bind m (fun x => k))
  (at level 10, x pattern, m at level 100, k at level 200, only parsing).

Section WithEnv.
Variable env : Env.

Definition randomBytes (n : nat) : M string :=
  perform (RandomBytes n) (fun k => Ok (randomHex env k n)).

Definition fetchChat (request : ChatRequest) : M Response :=
  perform (FetchChat request) (fun k => chatApi env k request).

Definition generate (prompt : string) : M string :=
  perform (Generate prompt) (fun k => generateText env k prompt).

(** [await new Promise((resolve) => setTimeout(resolve, ms))] *)
Definition sleep (ms : N) : M unit :=
  perform (Sleep ms) (fun _ => Ok tt).

Definition configureModelProviders (c e : option ModelProvider)
    : M (ModelProvider * ModelProvider) :=
  perform ResolveProviders (fun k => resolveProviders env k c e).

(** *** [toErrorString] (lines 7-16) *)
Definition toErrorString (err : thrown) : string :=
  match err with
  | JsError message => message
  | JsStringValue s =>
      if String.eqb s EmptyString then "Unknown error" else s
  | JsOtherValue truthy repr =>
      if truthy then repr else "Unknown error"
  end.

(** *** [sendMessage] (lines 373-465) *)

(** How the body of the [for] loop over the lines ends: normally, by
    [return], or by a throw; [receivedMessage] is kept in each case. *)
Inductive completion :=
| Normal (receivedMessage : string)
| Return (value : string)
| Abrupt (e : thrown) (receivedMessage : string).

(** Lines 441-455, for one line [msg]. *)
Definition onMessage (msg : string) (receivedMessage : string)
    : completion :=
  if String.eqb (trim msg) EmptyString then Normal receivedMessage
  else
    match JSON_parse msg with
    | Throw e => Abrupt e receivedMessage
    | Ok data =>
        match getProp data "type" with
        | Throw e => Abrupt e receivedMessage
        | Ok type =>
            let payload :=
              match getProp data "data" with
              | Ok v => v
              | Throw _ => None
              end in
            if isString type "error" then
              Abrupt
                (match payload with
                 | Some v =>
                     match toString (numberToString env) v with
                     | Ok message => JsError message
                     | Throw e => e
                     end
                 | None => JsError EmptyString
                 end)
                receivedMessage
            else
              match (if isString type "message" then
                       match toStringProp (numberToString env) payload with
                       | Ok text => Ok (receivedMessage +:+ text)
                       | Throw e => Throw e
                       end
                     else Ok receivedMessage) with
              | Throw e => Abrupt e receivedMessage
              | Ok receivedMessage =>
                  if isString type "messageEnd"
                  then Return (trim receivedMessage)
                  else Normal receivedMessage
              end
        end
    end.

(** Lines 440-456: [for (const msg of messages)]. *)
Fixpoint forMessages (messages : list string) (receivedMessage : string)
    : completion :=
  match messages with
  | [] => Normal receivedMessage
  | msg :: rest =>
      match onMessage msg receivedMessage with
      | Normal received => forMessages rest received
      | stop => stop
      end
  end.

(** Lines 432-464: the [while (true)] loop over the reads.  A throw
    inside the [try] block, whatever its origin, reaches the [catch]
    of line 458, which goes on reading with [partialChunk] kept. *)
Fixpoint readStream (reads : list string) (failure : option thrown)
    (partialChunk receivedMessage : string) : result string :=
  match reads with
  | [] =>
      match failure with
      | Some e => Throw e
      | None => Ok (trim receivedMessage)
      end
  | value :: rest =>
      let partialChunk := partialChunk +:+ value in
      match forMessages (split (ascii_of_N 10) partialChunk)
              receivedMessage with
      | Return value => Ok value
      | Normal received => readStream rest failure EmptyString received
      | Abrupt _ received => readStream rest failure partialChunk received
      end
  end.

Definition sendMessage (message chatId : string)
    (chatModelProvider embeddingModelProvider : ModelProvider)
    (focusMode optimizationMode : string)
    (systemInstructions : option string)
    (chatHistory : list (string * string)) : M string :=
  let* messageId := randomBytes 7 in
  let* response := fetchChat {|
    rq_content := message;
    rq_messageId := messageId;
    rq_chatId := chatId;
    rq_focusMode := focusMode;
    rq_optimizationMode := optimizationMode;
    rq_history := chatHistory;
    rq_chatModel := chatModelProvider;
    rq_embeddingModel := embeddingModelProvider;
    rq_systemInstructions := systemInstructions |} in
  if negb (ok response) then
    let text := match text response with Ok t => t | Throw _ => "" end in
    let tail :=
      if String.eqb text EmptyString then EmptyString
      else " | body: " +:+ take 200 text in
    throw (JsError ("Chat API " +:+ pretty (status response) +:+ " "
                    +:+ statusText response +:+ tail))
  else
    match body response with
    | None => throw (JsError "No response body received from chat API")
    | Some stream =>
        liftResult
          (readStream (chunks stream) (failure stream)
             EmptyString EmptyString)
    end.

(** *** [scoreLeadWithGemini] (lines 67-159) *)

(** [results.map((r) => `Q: ${r.question}\nA: ${r.answer}`).join('\n')] *)
Definition formatResults (results : list EnrichmentResult) : string :=
  join LF
    (map (fun r => "Q: " +:+ question r +:+ LF +:+ "A: " +:+ answer r)
       results).

Definition scorePrompt (formattedResults : string) : string :=
  scoreRubric env +:+ formattedResults +:+ LF +:+ "  ".

(** [/Total Score:\s*(\d+(\.\d+)?)/] *)
Definition scoreRegex : regex :=
  Cat [Lit "Total Score:"; Star true space;
       Group 1 (Seq (Plus true digit)
                  (Opt (Group 2 (Seq (Chr ".") (Plus true digit)))))].

(** Line 149: [Revenue Score:], [.*], one or more [\n.*?], [Reason:],
    [\s*] and a group holding the rest of the text. *)
Definition reasonRegex : regex :=
  Cat [Lit "Revenue Score:"; Star true dot;
       Plus true (Seq (Chr (ascii_of_N 10)) (Star false dot));
       Lit "Reason:"; Star true space; Group 1 (Star true anyChar)].

(** The [try] block of lines 147-152; nothing in it throws. *)
Definition scoreTry (text : string) : result ScoreReport :=
  let scoreMatch := exec scoreRegex text in
  let fullReason := exec reasonRegex text in
  let score :=
    match scoreMatch with
    | Some m =>
        match groups m !! 1%nat with
        | Some g => parseFloat g
        | None => NaN
        end
    | None => Num 0
    end in
  let reason :=
    match fullReason with
    | Some _ => trim text
    | None => "N/A"
    end in
  Ok {| sr_reason := reason; sr_score := score |}.

(** Lines 144-158. *)
Definition parseScore (text : string) : result ScoreReport :=
  match scoreTry text with
  | Ok report => Ok report
  | Throw _ => Ok {| sr_reason := "Parse failed"; sr_score := Num 0 |}
  end.

(** Of the fields of [lead] only [results] is read. *)
Definition scoreLeadWithGemini (results : list EnrichmentResult)
    : M ScoreReport :=
  let formattedResults := formatResults results in
  let* text := generate (scorePrompt formattedResults) in
  liftResult (parseScore text).

(** *** [extractCrmLeadFieldsWithLLM] (lines 162-214) *)

Definition crmPrompt (company formattedResults : string) : string :=
  join LF
    [ EmptyString;
      "Extract the following details for " +:+ company
        +:+ " as structured JSON if possible.";
      "Return only:";
      "{";
      dq "  'Customer Type': ...,";
      dq "  'Contact Search': ...,";
      dq "  'Phone': ...,";
      dq "  'Mobile': ...,";
      dq "  'Description': ...,";
      dq "  'Street': ...,";
      dq "  'City': ...,";
      dq "  'State': ...,";
      dq "  'Zip Code': ...,";
      dq "  'Country': ...,";
      "}";
      "Return ONLY the JSON. Fill fields with data or null if not found.";
      "Use the following company data context to answer the best you can:";
      formattedResults;
      "  " ].

(** [/\{[\s\S]*?\}/] *)
Definition braceRegex : regex :=
  Cat [Chr "{"; Star false anyChar; Chr "}"].

(** The [try] block of lines 205-209. *)
Definition crmTry (text : string) : result json :=
  match exec braceRegex text with
  | Some firstJson => JSON_parse (whole firstJson)
  | None => Ok (JObj ∅)
  end.

(** Lines 204-213. *)
Definition parseCrmFields (text : string) : result json :=
  match crmTry text with
  | Ok fields => Ok fields
  | Throw _ => Ok (JObj ∅)
  end.

(** The provider, mode and chat arguments are not read. *)
Definition extractCrmLeadFieldsWithLLM (company : string)
    (enrichmentData : list EnrichmentResult) : M json :=
  let formattedResults := formatResults enrichmentData in
  let* text := generate (crmPrompt company formattedResults) in
  liftResult (parseCrmFields text).

(** *** [generateEnrichmentQuestions] (lines 470-487) *)
Definition generateEnrichmentQuestions (company fullDomain : string)
    : list string :=
  [ "What does " +:+ company
      +:+ " company do? Please give a short description in two lines.";
    "What is the website of the company with the domain " +:+ fullDomain
      +:+ "?";
    "What are the revenue figures for the company with the domain "
      +:+ fullDomain
      +:+ "? Only include results related to this entity and list each figure along with the source name.";
    "What is the employee size of " +:+ company
      +:+ " company? Please reply with only the number of employees in two short sentences, without additional explanation.";
    "How many years has " +:+ company
      +:+ " company been in business? Please reply with only the number of years in two short sentences, without additional explanation.";
    "What is the latest funding news for " +:+ company
      +:+ " company? Please reply with only the latest funding amount and date in two short sentences in bullet points, without additional explanation.";
    "Is " +:+ company
      +:+ " in the Fortune 500 list? Please respond with a yes or no and one short supporting detail.";
    "Is " +:+ company
      +:+ " in the Fortune 100 list? Please respond with a yes or no and one short supporting detail.";
    "Who are the clients of " +:+ company
      +:+ "? List major clients or industries they serve.";
    "What is the industry classification of " +:+ company +:+ "?";
    "What is the LinkedIn profile link of the company named " +:+ company
      +:+ "? Return only the link." ].

(** *** [processLeadEnrichment] (lines 492-607) *)

(** Lines 512-522: [email.split('@')[1]] is [undefined] for an email
    without [@], and the call of [split] on it throws.  The two search
    queries are not used. *)
Definition extractCompanyInfo (email : string) : result (string * string) :=
  match split "@" email !! 1%nat with
  | None => Throw (cannotRead "undefined" "split")
  | Some domain =>
      Ok (List.hd EmptyString (split "." domain), domain)
  end.

(** The state of the question loop: [enrichmentResults] and
    [chatHistory]. *)
Definition session : Type :=
  (list EnrichmentResult * list (string * string))%type.

(** Lines 540-566, the body of the loop for one question.  After the
    call of [sendMessage] nothing in the [try] block throws, so the
    handler finds both arrays as they were before the call. *)
Definition askQuestion (chatId : string)
    (chatModelProvider embeddingModelProvider : ModelProvider)
    (focusMode optimizationMode : string)
    (systemInstructions : option string)
    (state : session) (question : string) : M session :=
  let '(enrichmentResults, chatHistory) := state in
  tryCatch
    (let* answer :=
       sendMessage question chatId chatModelProvider
         embeddingModelProvider focusMode optimizationMode
         systemInstructions chatHistory in
     let enrichmentResults :=
       (enrichmentResults
          ++ [{| question := question; answer := answer |}])%list in
     let chatHistory :=
       (chatHistory ++ [("human", question); ("assistant", answer)])%list in
     let* _ := sleep 2000 in
     ret (enrichmentResults, chatHistory))
    (fun error =>
       ret ((enrichmentResults
               ++ [{| question := question;
                      answer := "Error: " +:+ toErrorString error |}])%list,
            chatHistory)).

(** Lines 539-567: [for (const question of enrichmentQuestions)]. *)
Fixpoint forQuestions (chatId : string)
    (chatModelProvider embeddingModelProvider : ModelProvider)
    (focusMode optimizationMode : string)
    (systemInstructions : option string)
    (questions : list string) (state : session) : M session :=
  match questions with
  | [] => ret state
  | question :: rest =>
      let* state' :=
        askQuestion chatId chatModelProvider embeddingModelProvider
          focusMode optimizationMode systemInstructions state question in
      forQuestions chatId chatModelProvider embeddingModelProvider
        focusMode optimizationMode systemInstructions rest state'
  end.

(** Line 600: [email.split('@')[1]?.split('.')[0] || 'unknown']. *)
Definition fallbackCompany (email : string) : string :=
  match split "@" email !! 1%nat with
  | None => "unknown"
  | Some domain =>
      let c := List.hd EmptyString (split "." domain) in
      if String.eqb c EmptyString then "unknown" else c
  end.

(** Lines 511-567, the part of the [try] block that the specification
    calls the enrichment session: what it hands to the scoring and the
    extraction. *)
Definition enrichmentSession (email : string)
    (chatModelProvider embeddingModelProvider : ModelProvider)
    (focusMode optimizationMode : string)
    (systemInstructions : option string)
    : M (string * string * string * list EnrichmentResult) :=
  let* (company, domain) := liftResult (extractCompanyInfo email) in
  let* chatId := randomBytes 20 in
  let enrichmentQuestions := generateEnrichmentQuestions company domain in
  let* (enrichmentResults, chatHistory) :=
    forQuestions chatId chatModelProvider embeddingModelProvider
      focusMode optimizationMode systemInstructions
      enrichmentQuestions ([], []) in
  ret (company, domain, chatId, enrichmentResults).

Definition processLeadEnrichment (email : string)
    (chatModelProvider embeddingModelProvider : ModelProvider)
    (focusMode optimizationMode : string)
    (systemInstructions : option string) : M Outcome :=
  tryCatch
    (let* (company, domain, chatId, enrichmentResults) :=
       enrichmentSession email chatModelProvider embeddingModelProvider
         focusMode optimizationMode systemInstructions in
     let* report := scoreLeadWithGemini enrichmentResults in
     let* extractedStructuredFields :=
       extractCrmLeadFieldsWithLLM company enrichmentResults in
     ret {| email := email;
            company := company;
            chatId := chatId;
            enrichmentData := enrichmentResults;
            error := None;
            score := Some (sr_score report);
            reason := Some (sr_reason report);
            structuredFields := Some extractedStructuredFields |})
    (fun error =>
       ret {| email := email;
              company := fallbackCompany email;
              chatId := EmptyString;
              enrichmentData := [];
              error := Some (toErrorString error);
              score := None;
              reason := None;
              structuredFields := Some (JObj ∅) |}).

(** *** [enrichLeads] (lines 613-693) *)

(** Lines 626-628. *)
Definition validEmails (emails : list string) : list string :=
  List.filter
    (fun email => includes "@" email && (0 <? String.length email)%nat)
    (map trim emails).

(** Lines 650-675, the body of the loop for one email; as in
    [askQuestion] the handler finds the arrays as before the call. *)
Definition enrichOne (valid : list string)
    (chatModel embeddingModel : ModelProvider)
    (focusMode optimizationMode : string)
    (systemInstructions : option string)
    (state : list Outcome * list string) (email : string)
    : M (list Outcome * list string) :=
  let '(results, errors) := state in
  tryCatch
    (let* result :=
       processLeadEnrichment email chatModel embeddingModel focusMode
         optimizationMode systemInstructions in
     let results := (results ++ [result])%list in
     let errors :=
       match error result with
       | Some e =>
           if String.eqb e EmptyString then errors
           else (errors ++ ["Failed " +:+ email +:+ ": " +:+ e])%list
       | None => errors
       end in
     let notLast :=
       match indexOf email valid with
       | Some i => (Z.of_nat i <? Z.of_nat (length valid) - 1)%Z
       | None => (-1 <? Z.of_nat (length valid) - 1)%Z
       end in
     let* _ := if notLast then sleep 3000 else ret tt in
     ret (results, errors))
    (fun error =>
       ret (results,
            (errors ++ ["Failed to process " +:+ email +:+ ": "
                        +:+ toErrorString error])%list)).

(** Lines 649-676: [for (const email of validEmails)]. *)
Fixpoint forEmails (valid : list string)
    (chatModel embeddingModel : ModelProvider)
    (focusMode optimizationMode : string)
    (systemInstructions : option string)
    (todo : list string) (state : list Outcome * list string)
    : M (list Outcome * list string) :=
  match todo with
  | [] => ret state
  | email :: rest =>
      let* state' :=
        enrichOne valid chatModel embeddingModel focusMode
          optimizationMode systemInstructions state email in
      forEmails valid chatModel embeddingModel focusMode optimizationMode
        systemInstructions rest state'
  end.

(** Only the provider resolution can reach the outer handler, at a time
    when [results] and [errors] are still empty. *)
Definition enrichLeads (params : LeadEnrichmentParams)
    : M LeadEnrichmentResponse :=
  let focus := default "webSearch" (focusMode params) in
  let optimization := default "speed" (optimizationMode params) in
  let valid := validEmails (emails params) in
  if (length valid =? 0)%nat then
    ret {| success := false;
           results := [];
           errors := ["No valid email addresses provided"] |}
  else
    tryCatch
      (let* (chatModel, embeddingModel) :=
         configureModelProviders (chatModelProvider params)
           (embeddingModelProvider params) in
       let* (results, errors) :=
         forEmails valid chatModel embeddingModel focus optimization
           (systemInstructions params) valid ([], []) in
       ret {| success := (length errors =? 0)%nat;
              results := results;
              errors := errors |})
      (fun error =>
         let errorMessage :=
           "Configuration error: "
           +:+ match error with
               | JsError message => message
               | _ => "Unknown error"
               end in
         ret {| success := false;
                results := [];
                errors := [errorMessage] |}).

(** Lines 698-706. *)
Definition enrichSingleLead (email : string)
    (options : LeadEnrichmentParams) : M LeadEnrichmentResponse :=
  enrichLeads {| emails := [email];
                 chatModelProvider := chatModelProvider options;
                 embeddingModelProvider := embeddingModelProvider options;
                 focusMode := focusMode options;
                 optimizationMode := optimizationMode options;
                 systemInstructions := systemInstructions options |}.

End WithEnv.
End RunEnrichment.

(** ** [validateRequest] of [src/app/api/enrich-leads/route.ts] (lines 33-98) *)

Module Route.
Import JsString Regex Js Json Coerce.
#[local] Open Scope N_scope.

Definition MAX_EMAILS : nat := 50.

(** [/^[^\s@]+@[^\s@]+\.[^\s@]+$/] *)
Definition emailRegex : regex :=
  Cat [Bol; Plus true notSpaceAt; Chr "@"; Plus true notSpaceAt; Chr ".";
       Plus true notSpaceAt; Eol].

(** [Array.from(new Set(xs))]: the first occurrences, in order. *)
Fixpoint unique (seen : gset string) (xs : list string) : list string :=
  match xs with
  | [] => []
  | x :: rest =>
      if decide (x ∈ seen) then unique seen rest
      else x :: unique ({[x]} ∪ seen) rest
  end.

(** Lines 53-60. *)
Definition normalizeEmails (xs : list json) : list string :=
  unique ∅
    (List.filter (fun e => negb (String.eqb e EmptyString))
       (omap (fun e => match e with
                       | JStr s => Some (toLowerCase (trim s))
                       | _ => None
                       end) xs)).

(** [{ isValid, error?, data? }]; the data are the body with [emails]
    replaced by the normalized list. *)
Inductive validation :=
| Invalid (error : string)
| Valid (body : json) (emails : list string).

(** A provider option, when truthy, needs a truthy [name] and a truthy
    [provider] (lines 81-95). *)
Definition providerIncomplete (numberToString : string -> string)
    (p : option json) : bool :=
  match p with
  | Some v =>
      truthy numberToString v &&
      match getProp v "name", getProp v "provider" with
      | Ok n, Ok pr =>
          negb (truthyProp numberToString n)
          || negb (truthyProp numberToString pr)
      | _, _ => false
      end
  | None => false
  end.

Definition propOf (v : json) (prop : string) : option json :=
  match getProp v prop with
  | Ok p => p
  | Throw _ => None
  end.

Definition validateRequest (numberToString : string -> string)
    (body : json) : validation :=
  if negb (truthy numberToString body) then
    Invalid "Request body is required"
  else if negb (truthyProp numberToString (propOf body "emails")) then
    Invalid "emails field is required"
  else
    match propOf body "emails" with
    | Some (JArr xs) =>
        if (length xs =? 0)%nat then
          Invalid "At least one email is required"
        else
          let normalizedEmails := normalizeEmails xs in
          if (length normalizedEmails =? 0)%nat then
            Invalid "No valid emails after normalization"
          else if (MAX_EMAILS <? length normalizedEmails)%nat then
            Invalid ("Too many emails. Max allowed is " +:+ pretty MAX_EMAILS)
          else
            let invalidEmails :=
              List.filter (fun email => negb (test emailRegex email))
                normalizedEmails in
            if (0 <? length invalidEmails)%nat then
              Invalid ("Invalid email format(s): "
                       +:+ join ", " invalidEmails)
            else if providerIncomplete numberToString
                      (propOf body "chatModelProvider") then
              Invalid
                "chatModelProvider must have both name and provider fields"
            else if providerIncomplete numberToString
                      (propOf body "embeddingModelProvider") then
              Invalid
                "embeddingModelProvider must have both name and provider fields"
            else Valid body normalizedEmails
    | _ => Invalid "emails must be an array"
    end.

End Route.

(** ** Vocabulary of the statements *)

Module Props.
Import JsString Regex Js Json Coerce RunEnrichment Route.

(** The texts a pattern can consume, whatever the order in which the
    matcher tries them. *)
Inductive lang : regex -> string -> Prop :=
| lang_Eps : lang Eps ""
| lang_Class p a : p a = true -> lang (Class p) (String a "")
| lang_Seq r1 r2 w1 w2 :
    lang r1 w1 -> lang r2 w2 -> lang (Seq r1 r2) (w1 +:+ w2)
| lang_AltL r1 r2 w : lang r1 w -> lang (Alt r1 r2) w
| lang_AltR r1 r2 w : lang r2 w -> lang (Alt r1 r2) w
| lang_StarNil g r : lang (Star g r) ""
| lang_StarCons g r w1 w2 :
    lang r w1 -> lang (Star g r) w2 -> lang (Star g r) (w1 +:+ w2)
| lang_Group i r w : lang r w -> lang (Group i r) w
| lang_Bol : lang Bol ""
| lang_Eol : lang Eol "".

(** A matcher consumes only texts of the pattern before it continues. *)
Definition sound (r : regex)
    (step : string -> captures -> continuation -> outcome) : Prop :=
  forall s c k x,
    step s c k = Some x ->
    exists w s' c', s = w +:+ s' /\ lang r w /\ k s' c' = Some x.

Fixpoint allChars (p : ascii -> bool) (s : string) : bool :=
  match s with
  | String a s' => p a && allChars p s'
  | EmptyString => true
  end.

Definition headIs (p : ascii -> bool) (s : string) : bool :=
  match s with
  | String a _ => p a
  | EmptyString => false
  end.

(** One question of a session: the request that was sent and how the
    call of [sendMessage] ended. *)
Definition step : Type := (ChatRequest * result string)%type.

Definition answered (s : step) : bool := isOk s.2.

Definition entryOf (s : step) : EnrichmentResult :=
  {| question := rq_content s.1;
     answer := match s.2 with
               | Ok answer => answer
               | Throw e => "Error: " +:+ toErrorString e
               end |}.

Definition turnsOf (s : step) : list (string * string) :=
  match s.2 with
  | Ok answer => [("human", rq_content s.1); ("assistant", answer)]
  | Throw _ => []
  end.

Definition eventsOf (s : step) : list event :=
  [RandomBytes 7; FetchChat s.1]
  ++ (if answered s then [Sleep 2000] else []).

Section Session.
Variable env : Env.
Variables (chatId : string) (cm em : ModelProvider) (fm om : string)
          (si : option string).

(** The request [sendMessage] builds after the effects of [t]. *)
Definition requestAt (t : trace) (question : string)
    (history : list (string * string)) : ChatRequest :=
  {| rq_content := question;
     rq_messageId := randomHex env (length t) 7;
     rq_chatId := chatId;
     rq_focusMode := fm;
     rq_optimizationMode := om;
     rq_history := history;
     rq_chatModel := cm;
     rq_embeddingModel := em;
     rq_systemInstructions := si |}.

(** [steps] are the questions [questions] asked in order from the
    history [history] and the trace [t]: each request carries the
    history reached so far, each outcome is that of the call. *)
Fixpoint asked (history : list (string * string)) (t : trace)
    (questions : list string) (steps : list step) : Prop :=
  match questions, steps with
  | [], [] => True
  | question :: questions', s :: steps' =>
      s.1 = requestAt t question history
      /\ s.2 = (sendMessage env question chatId cm em fm om si history t).1
      /\ asked (history ++ turnsOf s) (t ++ eventsOf s) questions' steps'
  | _, _ => False
  end.
End Session.


(** The history grows by two entries with every question. *)
Definition historyGrowsByTwo (env : Env) : Prop :=
  forall chatId cm em fm om si results history question t state' t',
    askQuestion env chatId cm em fm om si (results, history) question t
    = (Ok state', t') ->
    length state'.2 = (length history + 2)%nat.

(** In the environment [env] the result list of every lead has one entry
    for each question generated for its email. *)
Definition resultCountIsQuestionCount (env : Env) : Prop :=
  forall email cm em fm om si t o t' company domain,
    processLeadEnrichment env email cm em fm om si t = (Ok o, t') ->
    extractCompanyInfo email = Ok (company, domain) ->
    length (enrichmentData o)
    = length (generateEnrichmentQuestions company domain).

(** The score parsed from [text] is a number between 0 and 90. *)
Definition scoreInRange (text : string) : Prop :=
  exists report q,
    parseScore text = Ok report /\ sr_score report = Num q
    /\ (0 <= q)%Q /\ (q <= 90)%Q.

(** A number that is not negative: a finite double at or above zero, or
    the positive infinity. *)
Definition nonnegative (n : number) : Prop :=
  match n with
  | Num q => (0 <= q)%Q
  | Infinity negative => negative = false
  | NaN => False
  end.

(** *** Environments of the examples *)

Definition someModel : ModelProvider :=
  {| name := "gpt-4o-mini"; provider := "openai" |}.

(** No request reaches the chat backend; the model calls answer with an
    empty text. *)
Definition offline : Env :=
  {| randomHex := fun _ _ => "00";
     chatApi := fun _ _ => Throw (JsError "fetch failed");
     resolveProviders := fun _ _ _ => Ok (someModel, someModel);
     generateText := fun _ _ => Ok "";
     numberToString := fun lexeme => lexeme;
     scoreRubric := "" |}.

(** The chat backend answers every request with the chunks [reads]. *)
Definition streaming (reads : list string) : Env :=
  {| randomHex := fun _ _ => "00";
     chatApi := fun _ _ =>
       Ok {| ok := true; status := 200; statusText := "OK";
             text := Ok ""; body := Some {| chunks := reads;
                                            failure := None |} |};
     resolveProviders := fun _ _ _ => Ok (someModel, someModel);
     generateText := fun _ _ => Ok "";
     numberToString := fun lexeme => lexeme;
     scoreRubric := "" |}.

(** The chat backend is unreachable and the scoring model rejects. *)
Definition scoringDown : Env :=
  {| randomHex := fun _ _ => "00";
     chatApi := fun _ _ => Throw (JsError "fetch failed");
     resolveProviders := fun _ _ _ => Ok (someModel, someModel);
     generateText := fun _ _ => Throw (JsError "quota exceeded");
     numberToString := fun lexeme => lexeme;
     scoreRubric := "" |}.

(** The three records of the example stream, and the stream. *)
Definition recordHel : string := dq "{'type':'message','data':'Hel'}".
Definition recordLo : string := dq "{'type':'message','data':'lo'}".
Definition recordEnd : string := dq "{'type':'messageEnd'}".
Definition recordBoom : string := dq "{'type':'error','data':'boom'}".
Definition helloStream : string :=
  recordHel +:+ LF +:+ recordLo +:+ LF +:+ recordEnd +:+ LF.

(** A division of the example stream inside its second record. *)
Definition helloFirstChunk : string :=
  recordHel +:+ LF +:+ dq "{'type':'mess".
Definition helloSecondChunk : string :=
  dq "age','data':'lo'}" +:+ LF +:+ recordEnd +:+ LF.

(** The example stream delivered in two chunks, divided after [i] bytes. *)
Definition dividedAt (i : nat) : list string :=
  [take i helloStream; drop i helloStream].

(** What [processLeadEnrichment] returns from its handler (lines
    598-605). *)
Definition failedOutcome (email : string) (e : thrown) : Outcome :=
  {| email := email;
     company := fallbackCompany email;
     chatId := "";
     enrichmentData := [];
     error := Some (toErrorString e);
     score := None;
     reason := None;
     structuredFields := Some (JObj ∅) |}.

(** A numeral beyond the range of the doubles: 1 followed by 309 zeros. *)
Fixpoint zeros (n : nat) : string :=
  match n with
  | O => EmptyString
  | S n' => String "0" (zeros n')
  end.

Definition hugeNumeral : string := String "1" (zeros 309).

(** The rubric lines of the scoring example. *)
Definition scoredText : string :=
  "Total Score: 73/90" +:+ LF +:+ "Reason: strong revenue".

(** The list of emails of the example and the parameters holding it. *)
Definition exampleEmails : list string :=
  [" A@b.com "; "bad-email"; "a@b.com"].
Definition exampleParams : LeadEnrichmentParams :=
  {| emails := exampleEmails;
     chatModelProvider := None;
     embeddingModelProvider := None;
     focusMode := None;
     optimizationMode := None;
     systemInstructions := None |}.

End Props.

Import JsString Regex Js Json Coerce RunEnrichment Route Props.

#[local] Hint Constructors lang : core.

(** ** Vocabulary of the further properties *)

Module Terms.

(** *** The stream of an answer *)

(** A line of the stream with its terminator, and the texts of a list put
    one after the other. *)
Definition closeLine (line : string) : string := line +:+ LF.

Definition joinAll (xs : list string) : string := foldr String.append "" xs.

(** A character that a JSON string literal writes as itself: no double
    quote, no backslash, no control character. *)
Definition isLiteralChar (c : ascii) : bool :=
  negb (Ascii.eqb c quote || Ascii.eqb c backslash || (codeOf c <? 32)%N).

Definition literal (data : string) : Prop := allChars isLiteralChar data = true.

(** The record of type [message] carrying [data], as the chat backend
    writes it, and a chunk holding the records of [datas], one per line. *)
Definition messageRecord (data : string) : string :=
  dq "{'type':'message','data':'" +:+ data +:+ dq "'}".

Definition chunkOf (datas : list string) : string :=
  joinAll (map (fun data => closeLine (messageRecord data)) datas).

(** The loop of [parseValue] over the members of an object, the values
    being parsed with the fuel [fuel]. *)
Definition membersOf (fuel : nat)
    : nat -> string -> gmap string json -> option (json * string) :=
  fix members (n : nat) (s : string) (o : gmap string json) {struct n} :=
    match n with
    | O => None
    | S n' =>
        match skipWs s with
        | String q s1 =>
            if Ascii.eqb q quote then
              match parseChars s1 with
              | Some (key, s2) =>
                  match skipWs s2 with
                  | String colon s3 =>
                      if Ascii.eqb colon ":" then
                        match parseValue fuel s3 with
                        | Some (v, s4) =>
                            match skipWs s4 with
                            | String d s5 =>
                                if Ascii.eqb d ","
                                then members n' s5 (<[key := v]> o)
                                else if Ascii.eqb d "}"
                                then Some (JObj (<[key := v]> o), s5)
                                else None
                            | EmptyString => None
                            end
                        | None => None
                        end
                      else None
                  | EmptyString => None
                  end
              | None => None
              end
            else None
        | EmptyString => None
        end
    end.

(** *** Emails *)

(** A character of the class [[^\s@]]; a word of one or more of them. *)
Definition isPlain (c : ascii) : bool := negb (isSpace c || Ascii.eqb c "@").

Definition plainWord (w : string) : Prop :=
  w <> "" /\ allChars isPlain w = true.

(** *** A batch *)

(** The line that [enrichLeads] adds to [errors] for a result (lines
    663-665): none when [error] is absent or empty. *)
Definition failureLine (o : Outcome) : option string :=
  match error o with
  | Some e =>
      if String.eqb e "" then None
      else Some ("Failed " +:+ email o +:+ ": " +:+ e)
  | None => None
  end.

(** The test of line 668,
    [validEmails.indexOf(email) < validEmails.length - 1]. *)
Definition notLast (valid : list string) (email : string) : bool :=
  match indexOf email valid with
  | Some i => (Z.of_nat i <? Z.of_nat (length valid) - 1)%Z
  | None => (-1 <? Z.of_nat (length valid) - 1)%Z
  end.

Definition isSleep (ms : N) (ev : event) : bool :=
  match ev with
  | Sleep m => (m =? ms)%N
  | _ => false
  end.

Definition isResolve (ev : event) : bool :=
  match ev with
  | ResolveProviders => true
  | _ => false
  end.

(** What one lead can do: anything but a resolution of the providers and
    a delay other than the two seconds between questions. *)
Definition isLeadEvent (ev : event) : bool :=
  match ev with
  | Sleep m => (m =? 2000)%N
  | ResolveProviders => false
  | _ => true
  end.

(** The number of delays of three seconds in a trace. *)
Definition pauses (t : trace) : nat := length (List.filter (isSleep 3000) t).

(** *** Examples *)

Definition paramsOf (emails : list string) : LeadEnrichmentParams :=
  {| emails := emails;
     chatModelProvider := None;
     embeddingModelProvider := None;
     focusMode := None;
     optimizationMode := None;
     systemInstructions := None |}.

(** A request body with three entries, two of them spellings of one
    email. *)
Definition exampleBody : json :=
  JObj {[ "emails" := JArr [JStr " A@b.com "; JStr "a@b.com"; JStr "c@d.io"] ]}.

End Terms.

Import Terms.

(** * Properties *)

(** ** Text *)

Lemma string_app_cons a s t : String a s +:+ t = String a (s +:+ t).
Proof. reflexivity. Qed.

Lemma string_app_nil_l s : "" +:+ s = s.
Proof. reflexivity. Qed.

Lemma string_app_nil_r s : s +:+ "" = s.
Proof. induction s as [| a s IH]; [done |]. by rewrite string_app_cons, IH. Qed.

Lemma string_app_assoc s t u : (s +:+ t) +:+ u = s +:+ (t +:+ u).
Proof.
  induction s as [| a s IH]; [done |]. by rewrite !string_app_cons, IH.
Qed.

Lemma string_length_app s t :
  String.length (s +:+ t) = (String.length s + String.length t)%nat.
Proof.
  induction s as [| a s IH]; [done |]. rewrite string_app_cons. simpl.
  by rewrite IH.
Qed.

Lemma take_app s t : take (String.length s) (s +:+ t) = s.
Proof.
  induction s as [| a s IH]; [by destruct t |].
  rewrite string_app_cons. simpl. by rewrite IH.
Qed.

Lemma startsWith_app l rest : startsWith l (l +:+ rest) = true.
Proof.
  induction l as [| a l IH]; [done |]. rewrite string_app_cons. cbn.
  by rewrite Ascii.eqb_refl, IH.
Qed.

Lemma includes_app l pre rest : includes l (pre +:+ l +:+ rest) = true.
Proof.
  induction pre as [| a pre IH].
  - rewrite string_app_nil_l.
    destruct (l +:+ rest) eqn:E; cbn [includes]; rewrite <- E;
      by rewrite startsWith_app.
  - rewrite string_app_cons. cbn [includes]. rewrite IH. apply orb_true_r.
Qed.

(** ** The matcher *)

Lemma consumed_app w s : consumed (w +:+ s) s = w.
Proof.
  unfold consumed. rewrite string_length_app.
  replace (String.length w + String.length s - String.length s)%nat
    with (String.length w) by lia.
  apply take_app.
Qed.

Lemma rmatch_Seq n r1 r2 s c k :
  rmatch n (Seq r1 r2) s c k
  = rmatch n r1 s c (fun s' c' => rmatch n r2 s' c' k).
Proof. reflexivity. Qed.

Lemma rmatch_Group n i r s c k :
  rmatch n (Group i r) s c k
  = rmatch n r s c (fun s' c' => k s' (<[i := consumed s s']> c')).
Proof. reflexivity. Qed.

Lemma iterate_sound greedy r step k :
  sound r step ->
  forall fuel s c x,
    iterate greedy step k fuel s c = Some x ->
    exists w s' c', s = w +:+ s' /\ lang (Star greedy r) w /\ k s' c' = Some x.
Proof.
  intros Hstep. induction fuel as [| fuel IH]; intros s c x H.
  - exists "", s, c. auto.
  - cbn [iterate] in H.
    set (K := fun s' c' => if (String.length s' <? String.length s)%nat
                           then iterate greedy step k fuel s' c' else None) in H.
    assert (Hagain : step s c K = Some x ->
      exists w s' c', s = w +:+ s' /\ lang (Star greedy r) w /\ k s' c' = Some x).
    { intros Hs. apply Hstep in Hs as (w1 & s1 & c1 & -> & Hw1 & HK).
      unfold K in HK. destruct (_ <? _)%nat; [| done].
      apply IH in HK as (w2 & s2 & c2 & -> & Hw2 & Hk).
      exists (w1 +:+ w2), s2, c2. rewrite string_app_assoc. eauto. }
    destruct greedy.
    + destruct (step s c K) as [y |] eqn:Hs.
      * inversion H; subst. auto.
      * exists "", s, c. auto.
    + destruct (k s c) as [y |] eqn:Hk.
      * inversion H; subst. exists "", s, c. auto.
      * auto.
Qed.

Lemma rmatch_sound n r : sound r (rmatch n r).
Proof.
  induction r as [| p | r1 IH1 r2 IH2 | r1 IH1 r2 IH2 | g r IH | i r IH | |];
    intros s c k x H; cbn [rmatch] in H.
  - exists "", s, c. auto.
  - destruct s as [| a s]; [done |]. destruct (p a) eqn:Hp; [| done].
    exists (String a ""), s, c. auto.
  - apply IH1 in H as (w1 & s1 & c1 & -> & Hw1 & H).
    apply IH2 in H as (w2 & s2 & c2 & -> & Hw2 & H).
    exists (w1 +:+ w2), s2, c2. rewrite string_app_assoc. auto.
  - destruct (rmatch n r1 s c k) as [y |] eqn:H1.
    + inversion H; subst. apply IH1 in H1 as (w & s' & c' & ? & ? & ?). eauto 8.
    + apply IH2 in H as (w & s' & c' & ? & ? & ?). eauto 8.
  - eapply iterate_sound in H; eauto.
  - apply IH in H as (w & s' & c' & ? & ? & ?). eauto 8.
  - destruct (_ =? _)%nat; [| done]. exists "", s, c. auto.
  - destruct s; [| done]. exists "", "", c. auto.
Qed.

Lemma rmatch_accept n r s s' c :
  rmatch n r s ∅ accept = Some (s', c) ->
  exists w, s = w +:+ s' /\ lang r w /\ consumed s s' = w.
Proof.
  intros H. apply rmatch_sound in H as (w & s1 & c1 & -> & Hw & Hk).
  inversion Hk; subst. exists w. by rewrite consumed_app.
Qed.

(** A successful search found its match at some suffix of the text. *)
Lemma search_inv n r s m :
  search n r s = Some m ->
  exists pre w post,
    s = pre +:+ w +:+ post /\ lang r w
    /\ rmatch n r (w +:+ post) ∅ accept = Some (post, groups m)
    /\ whole m = w.
Proof.
  assert (Hhere : forall s s' c,
    rmatch n r s ∅ accept = Some (s', c) ->
    exists pre w post,
      s = pre +:+ w +:+ post /\ lang r w
      /\ rmatch n r (w +:+ post) ∅ accept = Some (post, c)
      /\ consumed s s' = w).
  { intros u u' c Hm.
    destruct (rmatch_accept _ _ _ _ _ Hm) as (w & -> & Hw & Hc).
    exists "", w, u'. auto. }
  induction s as [| a s IH]; cbn [search]; intros H.
  - destruct (rmatch n r "" ∅ accept) as [[s' c] |] eqn:Hm; [| done].
    inversion H; subst; clear H. cbn [whole groups]. eauto.
  - destruct (rmatch n r (String a s) ∅ accept) as [[s' c] |] eqn:Hm.
    + inversion H; subst; clear H. cbn [whole groups]. eauto.
    + apply IH in H as (pre & w & post & -> & ? & ? & ?).
      exists (String a pre), w, post. auto.
Qed.

Lemma exec_inv r text m :
  exec r text = Some m ->
  exists pre post, text = pre +:+ whole m +:+ post /\ lang r (whole m).
Proof.
  intros H. apply search_inv in H as (pre & w & post & -> & Hw & _ & ->).
  eauto.
Qed.

Lemma lang_Chr c w : lang (Chr c) w -> w = String c "".
Proof.
  unfold Chr. inversion 1; subst.
  match goal with H : Ascii.eqb _ _ = true |- _ =>
    apply Ascii.eqb_eq in H; by subst end.
Qed.

Lemma lang_Lit l w : lang (Lit l) w -> w = l.
Proof.
  revert w. induction l as [| a l IH]; intros w H; cbn [Lit] in H.
  - by inversion H.
  - inversion H as [| | r1 r2 w1 w2 H1 H2 | | | | | | |]; subst.
    apply lang_Chr in H1 as ->. apply IH in H2 as ->. done.
Qed.

(** A pattern that begins with a literal finds nothing in a text without
    that literal. *)
Lemma exec_needs_literal l r text :
  includes l text = false -> exec (Seq (Lit l) r) text = None.
Proof.
  intros Hno. destruct (exec _ text) as [m |] eqn:E; [| done].
  apply exec_inv in E as (pre & post & -> & Hw).
  inversion Hw as [| | r1 r2 w1 w2 H1 H2 Hr Hm | | | | | | |]; subst.
  apply lang_Lit in H1 as ->. rewrite <- Hm in Hno.
  rewrite string_app_assoc in Hno. by rewrite includes_app in Hno.
Qed.

(** The first group of [scoreRegex] holds a text that begins with a digit. *)
Lemma scoreRegex_group n s post c :
  rmatch n scoreRegex s ∅ accept = Some (post, c) ->
  exists d rest, c !! 1%nat = Some (String d rest) /\ isDigit d = true.
Proof.
  unfold scoreRegex. cbn [Cat]. intros H. rewrite rmatch_Seq in H.
  apply rmatch_sound in H as (w1 & s1 & c1 & _ & _ & H).
  rewrite rmatch_Seq in H.
  apply rmatch_sound in H as (w2 & s2 & c2 & _ & _ & H).
  rewrite rmatch_Group in H.
  apply rmatch_sound in H as (g & s3 & c3 & -> & Hg & H).
  rewrite consumed_app in H. inversion H; subst; clear H.
  inversion Hg as [| | r1 r2 u1 u2 Hu1 Hu2 | | | | | | |]; subst.
  unfold Plus in Hu1.
  inversion Hu1 as [| | r1 r2 v1 v2 Hv1 Hv2 | | | | | | |]; subst.
  inversion Hv1; subst. rewrite !string_app_cons.
  eexists _, _. by rewrite lookup_insert_eq.
Qed.

(** ** Runs of a quantifier *)

Lemma ltb_tail a s : (String.length s <? String.length (String a s))%nat = true.
Proof. apply Nat.ltb_lt. simpl. lia. Qed.

Lemma iterate_class_cons n greedy p k fuel a s c :
  p a = true ->
  iterate greedy (rmatch n (Class p)) k (S fuel) (String a s) c
  = let more := iterate greedy (rmatch n (Class p)) k fuel s c in
    if greedy
    then match more with Some x => Some x | None => k (String a s) c end
    else match k (String a s) c with Some x => Some x | None => more end.
Proof.
  intros Hp. cbn [iterate rmatch]. by rewrite Hp, ltb_tail.
Qed.

Lemma iterate_class_stop n greedy p k fuel s c :
  headIs p s = false ->
  iterate greedy (rmatch n (Class p)) k fuel s c = k s c.
Proof.
  intros Hs. destruct fuel as [| fuel]; [done |]. cbn [iterate rmatch].
  destruct s as [| a s]; cbn [headIs] in Hs; [| rewrite Hs];
    destruct greedy; by destruct (k _ c).
Qed.

(** A greedy run over a class goes to the end of the run when what follows
    the quantifier succeeds there. *)
Lemma iterate_greedy_run n p k w : forall s c x,
  allChars p w = true ->
  headIs p s = false ->
  k s c = Some x ->
  iterate true (rmatch n (Class p)) k (String.length (w +:+ s)) (w +:+ s) c
  = Some x.
Proof.
  induction w as [| a w IH]; intros s c x Hw Hs Hk.
  - rewrite string_app_nil_l. by rewrite iterate_class_stop.
  - cbn [allChars] in Hw. apply andb_true_iff in Hw as [Ha Hw].
    rewrite string_app_cons. cbn [String.length].
    rewrite iterate_class_cons by done. cbn zeta. by rewrite (IH s c x).
Qed.

(** A lazy run stops at the first place where what follows succeeds. *)
Lemma iterate_lazy_run n k w : forall s c x,
  (forall u v, w = u +:+ v -> v <> "" -> k (v +:+ s) c = None) ->
  k s c = Some x ->
  iterate false (rmatch n anyChar) k (String.length (w +:+ s)) (w +:+ s) c
  = Some x.
Proof.
  induction w as [| a w IH]; intros s c x Hw Hk.
  - rewrite string_app_nil_l. destruct (String.length s); cbn [iterate];
      by rewrite Hk.
  - rewrite string_app_cons. cbn [String.length]. unfold anyChar.
    rewrite iterate_class_cons by done. cbn zeta.
    rewrite <- string_app_cons, (Hw "" (String a w)) by done.
    apply IH; [| done]. intros u v -> Hv. by apply (Hw (String a u) v).
Qed.

Lemma rmatch_Class_cons n p a s c k :
  p a = true -> rmatch n (Class p) (String a s) c k = k s c.
Proof. intros Hp. cbn [rmatch]. by rewrite Hp. Qed.

Lemma rmatch_Class_fail n p s c k :
  headIs p s = false -> rmatch n (Class p) s c k = None.
Proof.
  intros Hs. cbn [rmatch]. destruct s as [| a s]; [done |].
  cbn [headIs] in Hs. by rewrite Hs.
Qed.

Lemma rmatch_Lit_app n l s c k : rmatch n (Lit l) (l +:+ s) c k = k s c.
Proof.
  revert c k. induction l as [| a l IH]; intros c k; [done |].
  rewrite string_app_cons. cbn [Lit]. rewrite rmatch_Seq.
  unfold Chr. rewrite rmatch_Class_cons by apply Ascii.eqb_refl. apply IH.
Qed.

Lemma rmatch_Alt n r1 r2 s c k :
  rmatch n (Alt r1 r2) s c k
  = match rmatch n r1 s c k with
    | Some x => Some x
    | None => rmatch n r2 s c k
    end.
Proof. reflexivity. Qed.

Lemma startsWith_cons c l a s :
  startsWith (String c l) (String a s) = Ascii.eqb c a && startsWith l s.
Proof. reflexivity. Qed.

Lemma rmatch_Star n greedy r s c k :
  rmatch n (Star greedy r) s c k
  = iterate greedy (rmatch n r) k (String.length s) s c.
Proof. reflexivity. Qed.

Lemma includes_cons l a s :
  includes l (String a s) = false ->
  startsWith l (String a s) = false /\ includes l s = false.
Proof. cbn [includes]. by intros [? ?]%orb_false_iff. Qed.

(** ** The first brace-delimited text *)

Lemma includes_char_split c u b v :
  includes (String c "") (u +:+ String b v) = false -> Ascii.eqb c b = false.
Proof.
  induction u as [| a u IH]; intros H.
  - rewrite string_app_nil_l in H. apply includes_cons in H as [H _].
    cbn [startsWith] in H. by rewrite andb_true_r in H.
  - rewrite string_app_cons in H. apply includes_cons in H as [_ H]. auto.
Qed.

Lemma braceRegex_here n mid post :
  includes "}" mid = false ->
  rmatch n braceRegex ("{" +:+ mid +:+ "}" +:+ post) ∅ accept
  = Some (post, ∅).
Proof.
  intros Hmid. unfold braceRegex. cbn [Cat]. rewrite string_app_cons.
  rewrite string_app_nil_l, rmatch_Seq.
  unfold Chr at 1. rewrite rmatch_Class_cons by done.
  rewrite rmatch_Seq, rmatch_Star.
  apply iterate_lazy_run.
  - intros u v -> Hv. destruct v as [| b v]; [done |].
    apply includes_char_split in Hmid. rewrite string_app_cons.
    unfold Chr. apply rmatch_Class_fail. by cbn.
  - done.
Qed.

Lemma braceRegex_first pre mid post :
  includes "{" pre = false ->
  includes "}" mid = false ->
  exec braceRegex (pre +:+ "{" +:+ mid +:+ "}" +:+ post)
  = Some {| whole := "{" +:+ mid +:+ "}"; groups := ∅ |}.
Proof.
  intros Hpre Hmid. unfold exec.
  generalize (String.length (pre +:+ "{" +:+ mid +:+ "}" +:+ post)).
  intros n. induction pre as [| a pre IH].
  - rewrite string_app_nil_l.
    assert (Hs : search n braceRegex ("{" +:+ mid +:+ "}" +:+ post)
                 = match rmatch n braceRegex ("{" +:+ mid +:+ "}" +:+ post)
                           ∅ accept with
                   | Some (s', c) =>
                       Some {| whole := consumed ("{" +:+ mid +:+ "}" +:+ post) s';
                               groups := c |}
                   | None => None
                   end).
    { rewrite string_app_cons. cbn [search].
      by destruct (rmatch _ _ _ _ _) as [[? ?] |] eqn:E;
        [| rewrite <- string_app_cons, braceRegex_here in E]. }
    rewrite Hs, braceRegex_here by done.
    replace ("{" +:+ mid +:+ "}" +:+ post)
      with (("{" +:+ mid +:+ "}") +:+ post)
      by by rewrite !string_app_assoc.
    by rewrite consumed_app.
  - apply includes_cons in Hpre as [Ha Hpre]. rewrite string_app_cons.
    cbn [search]. unfold braceRegex at 1. cbn [Cat]. rewrite rmatch_Seq.
    unfold Chr at 1. rewrite rmatch_Class_fail.
    + by apply IH.
    + cbn [headIs]. cbn [startsWith] in Ha. by rewrite andb_true_r in Ha.
Qed.

(** ** The score of the example *)

Lemma startsWith_inside l : forall u rest,
  includes "T" l = false ->
  startsWith l (u +:+ String "T" rest) = true ->
  startsWith l u = true.
Proof.
  induction l as [| c l IH]; intros u rest Hl H; [done |].
  apply includes_cons in Hl as [Hc Hl]. cbn [startsWith] in Hc.
  rewrite andb_true_r in Hc.
  destruct u as [| b u].
  - rewrite string_app_nil_l in H. cbn [startsWith] in H.
    rewrite Ascii.eqb_sym, Hc in H. done.
  - rewrite string_app_cons in H. cbn [startsWith] in H |- *.
    apply andb_true_iff in H as [-> H]. eauto.
Qed.

Lemma scoreRegex_needs_literal n s x :
  rmatch n scoreRegex s ∅ accept = Some x ->
  startsWith "Total Score:" s = true.
Proof.
  unfold scoreRegex. cbn [Cat]. rewrite rmatch_Seq. intros H.
  apply rmatch_sound in H as (w & s' & c' & -> & Hw & _).
  apply lang_Lit in Hw as ->. apply startsWith_app.
Qed.

Lemma scoreRegex_here n post :
  rmatch n scoreRegex (scoredText +:+ post) ∅ accept
  = Some ("/90" +:+ LF +:+ "Reason: strong revenue" +:+ post,
          {[ 1%nat := "73" ]}).
Proof.
  set (rest := "/90" +:+ LF +:+ "Reason: strong revenue" +:+ post).
  replace (scoredText +:+ post)
    with ("Total Score:" +:+ " " +:+ "73" +:+ rest).
  2:{ unfold rest, scoredText. by rewrite !string_app_assoc. }
  unfold scoreRegex. cbn [Cat].
  rewrite rmatch_Seq, rmatch_Lit_app, rmatch_Seq, rmatch_Star.
  unfold space. apply iterate_greedy_run; [done | done |]. cbn beta.
  rewrite rmatch_Group. rewrite rmatch_Seq.
  unfold Plus.
  rewrite rmatch_Seq. unfold digit at 1.
  change ("73" +:+ rest) with (String "7" ("3" +:+ rest)).
  rewrite rmatch_Class_cons by done. rewrite rmatch_Star.
  unfold digit at 1. apply iterate_greedy_run; [done | done |]. cbn beta.
  unfold Opt. rewrite rmatch_Alt, rmatch_Group, rmatch_Seq. unfold Chr.
  rewrite rmatch_Class_fail by done. cbn [rmatch].
  unfold accept. do 2 f_equal.
  change (String "7" ("3" +:+ rest)) with ("73" +:+ rest).
  by rewrite consumed_app.
Qed.

Lemma scoreRegex_search n pre post :
  includes "Total Score:" pre = false ->
  search n scoreRegex (pre +:+ scoredText +:+ post)
  = Some {| whole := "Total Score: 73"; groups := {[ 1%nat := "73" ]} |}.
Proof.
  intros Hpre. induction pre as [| a pre IH].
  - rewrite string_app_nil_l.
    assert (Hs : forall s, search n scoreRegex s
                 = match rmatch n scoreRegex s ∅ accept with
                   | Some (s', c) =>
                       Some {| whole := consumed s s'; groups := c |}
                   | None => match s with
                             | String _ s' => search n scoreRegex s'
                             | "" => None
                             end
                   end).
    { by intros []. }
    rewrite Hs, scoreRegex_here. do 2 f_equal.
    replace (scoredText +:+ post)
      with ("Total Score: 73"
            +:+ "/90" +:+ LF +:+ "Reason: strong revenue" +:+ post).
    2:{ unfold scoredText. by rewrite !string_app_assoc. }
    by rewrite consumed_app.
  - rewrite string_app_cons. cbn [search]. rewrite <- string_app_cons.
    destruct (rmatch n scoreRegex _ ∅ accept) as [x |] eqn:E.
    + apply scoreRegex_needs_literal in E.
      change (scoredText +:+ post)
        with (String "T" ("otal Score: 73/90" +:+ LF
                          +:+ "Reason: strong revenue" +:+ post)) in E.
      rewrite string_app_cons in E.
      change "Total Score:" with (String "T" "otal Score:") in E, Hpre.
      rewrite startsWith_cons in E. apply andb_true_iff in E as [Ea E].
      apply startsWith_inside in E; [| done].
      apply includes_cons in Hpre as [Hpre _].
      rewrite startsWith_cons in Hpre. by rewrite Ea, E in Hpre.
    + apply includes_cons in Hpre as [_ Hpre]. auto.
Qed.

(** ** [parseFloat] on a numeral *)

Lemma shr_1_nonneg mrs :
  (0 <= SpecFloat.shr_m mrs)%Z ->
  (0 <= SpecFloat.shr_m (SpecFloat.shr_1 mrs))%Z.
Proof.
  destruct mrs as [m r s]. cbn [SpecFloat.shr_m].
  destruct m as [| [p | p |] | p]; cbn; lia.
Qed.

Lemma iter_shr_1_nonneg p : forall mrs,
  (0 <= SpecFloat.shr_m mrs)%Z ->
  (0 <= SpecFloat.shr_m (SpecFloat.iter_pos SpecFloat.shr_1 p mrs))%Z.
Proof.
  induction p as [p IH | p IH |]; intros mrs H; cbn [SpecFloat.iter_pos];
    auto using shr_1_nonneg.
Qed.

Lemma shr_fexp_nonneg prec emax m e l :
  (0 <= m)%Z ->
  (0 <= SpecFloat.shr_m (SpecFloat.shr_fexp prec emax m e l).1)%Z.
Proof.
  intros Hm. unfold SpecFloat.shr_fexp, SpecFloat.shr.
  assert (H : (0 <= SpecFloat.shr_m (SpecFloat.shr_record_of_loc m l))%Z).
  { by destruct l as [| []]. }
  destruct (_ - e)%Z; cbn [fst]; auto using iter_shr_1_nonneg.
Qed.

Lemma round_nearest_even_nonneg mx lx :
  (0 <= mx)%Z -> (0 <= SpecFloat.round_nearest_even mx lx)%Z.
Proof.
  intros H. destruct lx as [| []]; cbn [SpecFloat.round_nearest_even];
    try destruct (Z.even mx); lia.
Qed.

(** Rounding a mantissa that is not negative gives a double. *)
Lemma binary_round_aux_number prec emax sx mx ex lx :
  (0 <= mx)%Z ->
  SpecFloat.binary_round_aux prec emax sx mx ex lx <> SpecFloat.S754_nan.
Proof.
  intros Hm. unfold SpecFloat.binary_round_aux.
  pose proof (shr_fexp_nonneg prec emax mx ex lx Hm) as H1.
  destruct (SpecFloat.shr_fexp prec emax mx ex lx) as [mrs' e'].
  cbn [fst] in H1.
  pose proof (shr_fexp_nonneg prec emax _ e' SpecFloat.loc_Exact
                (round_nearest_even_nonneg _
                   (SpecFloat.loc_of_shr_record mrs') H1)) as H2.
  destruct (SpecFloat.shr_fexp prec emax _ e' SpecFloat.loc_Exact)
    as [mrs'' e''].
  cbn [fst] in H2. destruct (SpecFloat.shr_m mrs'') as [| m | m]; [done | | lia].
  by destruct (e'' <=? emax - prec)%Z.
Qed.

Lemma nearestDouble_number mantissa scale :
  nearestDouble mantissa scale <> SpecFloat.S754_nan.
Proof.
  assert (Hnorm : forall m e,
    SpecFloat.binary_normalize 53 1024 m e false <> SpecFloat.S754_nan).
  { intros m e. unfold SpecFloat.binary_normalize, SpecFloat.binary_round.
    destruct m as [| m | m]; [done | |];
      destruct (SpecFloat.shl_align _ _ _) as [mz ez];
      by apply binary_round_aux_number. }
  unfold nearestDouble.
  destruct mantissa as [| m | m]; try apply Hnorm.
  destruct scale as [| p | p]; try apply Hnorm.
  unfold SpecFloat.SFdiv, SpecFloat.SFdiv_core_binary.
  match goal with
  | |- context [Z.div_eucl ?a ?b] =>
      pose proof (Z.div_eucl_eq a b ltac:(done)) as Heq;
      pose proof (Z.mod_pos_bound a b ltac:(done)) as Hmod;
      assert (Ha : (0 <= a)%Z);
      [| unfold Z.modulo in Hmod; destruct (Z.div_eucl a b) as [q r] ]
  end.
  { match goal with
    | |- (0 <= match ?s with _ => _ end)%Z => destruct s; try done
    end.
    by apply Z.shiftl_nonneg. }
  apply binary_round_aux_number. nia.
Qed.

Lemma numberOf_nonnegative x :
  x <> SpecFloat.S754_nan -> nonnegative (numberOf false x).
Proof.
  destruct x as [s | s | | s m e]; [done | done | done |]. intros _.
  cbn [numberOf nonnegative]. rewrite Qred_correct.
  destruct e as [| p | p]; [| | done];
    change 0%Q with (inject_Z 0); rewrite <- Zle_Qle; lia.
Qed.

(** [parseFloat] of a text that begins with a digit is the number that
    its numeral rounds to: never [NaN], never negative. *)
Lemma parseFloat_numeral d rest :
  isDigit d = true -> nonnegative (parseFloat (String d rest)).
Proof.
  intros Hd.
  assert (Hfacts : isSpace d = false /\ Ascii.eqb d "-" = false
                   /\ Ascii.eqb d "+" = false /\ Ascii.eqb "I" d = false).
  { destruct d as [[] [] [] [] [] [] [] []];
      vm_compute in Hd; try discriminate Hd; by vm_compute. }
  destruct Hfacts as (Hsp & Hm & Hp & Hi).
  unfold parseFloat. cbn [trimStart]. rewrite Hsp, Hm, Hp.
  cbn [startsWith]. rewrite Hi. cbn [andb].
  cbn [spanDigits]. rewrite Hd.
  destruct (spanDigits rest) as [ds s2].
  set (frac := match s2 with
               | String c r => if Ascii.eqb c "." then spanDigits r else ("", s2)
               | "" => ("", s2)
               end).
  destruct frac as [fp s3]. rewrite string_app_cons. cbn [String.eqb].
  apply numberOf_nonnegative, nearestDouble_number.
Qed.

(** ** The read loop *)

Lemma readStream_returns env reads :
  forall partialChunk receivedMessage,
  exists value, readStream env reads None partialChunk receivedMessage = Ok value.
Proof.
  induction reads as [| value reads IH]; intros partialChunk receivedMessage;
    cbn [readStream]; [eauto |].
  destruct (forMessages env _ receivedMessage); eauto.
Qed.

(** ** The question loop *)

Section Session.
Variable env : Env.
Variables (chatId : string) (cm em : ModelProvider) (fm om : string)
          (si : option string).

Lemma sendMessage_run question history t :
  (sendMessage env question chatId cm em fm om si history t).2
  = t ++ [RandomBytes 7;
          FetchChat (requestAt env chatId cm em fm om si t question history)].
Proof.
  unfold sendMessage, bind, randomBytes, fetchChat, perform, throw,
    liftResult, requestAt.
  rewrite <- app_assoc. simpl.
  destruct (chatApi env _ _) as [response | e]; [| done].
  destruct (negb (ok response)); [done |].
  by destruct (body response).
Qed.

Lemma askQuestion_run results history question t :
  let s := (requestAt env chatId cm em fm om si t question history,
            (sendMessage env question chatId cm em fm om si history t).1) in
  askQuestion env chatId cm em fm om si (results, history) question t
  = (Ok (results ++ [entryOf s], history ++ turnsOf s), t ++ eventsOf s).
Proof.
  cbn zeta. pose proof (sendMessage_run question history t) as Ht.
  unfold askQuestion, tryCatch, bind.
  destruct (sendMessage env question chatId cm em fm om si history t)
    as [[answer | e] t1]; cbn [fst snd] in *; subst t1;
    unfold eventsOf, answered, entryOf, turnsOf; cbn [fst snd isOk].
  - unfold sleep, perform, ret. by rewrite <- app_assoc.
  - unfold ret. by rewrite app_nil_r.
Qed.

Lemma forQuestions_run questions :
  forall results history t,
  exists steps,
    forQuestions env chatId cm em fm om si questions (results, history) t
    = (Ok (results ++ map entryOf steps, history ++ flat_map turnsOf steps),
       t ++ flat_map eventsOf steps)
    /\ asked env chatId cm em fm om si history t questions steps.
Proof.
  induction questions as [| q qs IH]; intros results history t.
  - exists []. cbn. unfold ret. by rewrite !app_nil_r.
  - pose proof (askQuestion_run results history q t) as Hask.
    cbn zeta in Hask.
    set (s := (requestAt env chatId cm em fm om si t q history,
               (sendMessage env q chatId cm em fm om si history t).1)) in *.
    destruct (IH (results ++ [entryOf s]) (history ++ turnsOf s)
                (t ++ eventsOf s)) as (steps & Hrun & Hasked).
    exists (s :: steps). cbn [forQuestions]. unfold bind at 1.
    rewrite Hask, Hrun. cbn [map flat_map asked].
    by rewrite <- !app_assoc.
Qed.

Lemma asked_questions questions : forall history t steps,
  asked env chatId cm em fm om si history t questions steps ->
  map (fun s : step => rq_content s.1) steps = questions
  /\ Forall (fun s : step => rq_chatId s.1 = chatId) steps.
Proof.
  induction questions as [| q qs IH]; intros history t [| s steps] H;
    cbn [asked] in H; try done.
  destruct H as (Hreq & _ & H). apply IH in H as [Hq Hc].
  cbn [map]. rewrite Hq, Hreq. split; [done |].
  constructor; [by rewrite Hreq | done].
Qed.
End Session.

Lemma map_question_entryOf steps :
  map question (map entryOf steps) = map (fun s : step => rq_content s.1) steps.
Proof. by rewrite map_map. Qed.



(** ** One lead *)

Lemma split_at s :
  includes "@" s = true ->
  exists domain, split "@" s !! 1%nat = Some domain.
Proof.
  induction s as [| a s IH]; [done |]. cbn [includes startsWith split].
  rewrite andb_true_r. destruct (Ascii.eqb_spec "@" a) as [<- | Hne].
  - intros _. cbn. destruct s; cbn; [eauto |].
    destruct (Ascii.eqb _ _); [eauto |]. destruct (split "@" s); eauto.
  - rewrite (proj2 (Ascii.eqb_neq a "@")) by congruence. cbn [orb].
    intros H. apply IH in H as [domain H].
    destruct (split "@" s) as [| x xs]; [done |]. eauto.
Qed.

Lemma split_none c s : includes (String c "") s = false -> split c s = [s].
Proof.
  induction s as [| a s IH]; [done |]. intros [Ha Hs]%includes_cons.
  rewrite startsWith_cons, andb_true_r in Ha. cbn [split].
  rewrite Ascii.eqb_sym, Ha, IH by done. done.
Qed.

Lemma extractCompanyInfo_at email :
  includes "@" email = true ->
  exists company domain, extractCompanyInfo email = Ok (company, domain).
Proof.
  intros H. apply split_at in H as [domain H]. unfold extractCompanyInfo.
  rewrite H. eauto.
Qed.

Section Lead.
Variable env : Env.
Variables (cm em : ModelProvider) (fm om : string) (si : option string).

Lemma enrichmentSession_run email company domain t :
  extractCompanyInfo email = Ok (company, domain) ->
  let chatId := randomHex env (length t) 20 in
  exists steps,
    enrichmentSession env email cm em fm om si t
    = (Ok (company, domain, chatId, map entryOf steps),
       (t ++ [RandomBytes 20]) ++ flat_map eventsOf steps)
    /\ asked env chatId cm em fm om si [] (t ++ [RandomBytes 20])
         (generateEnrichmentQuestions company domain) steps.
Proof.
  intros Hinfo chatId. unfold enrichmentSession, bind, liftResult.
  rewrite Hinfo. unfold randomBytes, perform. fold chatId.
  destruct (forQuestions_run env chatId cm em fm om si
              (generateEnrichmentQuestions company domain) [] []
              (t ++ [RandomBytes 20])) as (steps & Hrun & Hasked).
  exists steps. by rewrite Hrun.
Qed.

(** [processLeadEnrichment] after its session: the two model calls. *)
Lemma processLeadEnrichment_run email t :
  processLeadEnrichment env email cm em fm om si t
  = match enrichmentSession env email cm em fm om si t with
    | (Throw e, t1) => (Ok (failedOutcome email e), t1)
    | (Ok (company, domain, chatId, results), t1) =>
        let scoring := scorePrompt env (formatResults results) in
        let extraction := crmPrompt company (formatResults results) in
        match generateText env (length t1) scoring with
        | Throw e => (Ok (failedOutcome email e), t1 ++ [Generate scoring])
        | Ok text1 =>
            match generateText env (S (length t1)) extraction with
            | Throw e =>
                (Ok (failedOutcome email e),
                 t1 ++ [Generate scoring; Generate extraction])
            | Ok text2 =>
                match parseScore text1, parseCrmFields text2 with
                | Ok report, Ok fields =>
                    (Ok {| email := email;
                           company := company;
                           chatId := chatId;
                           enrichmentData := results;
                           error := None;
                           score := Some (sr_score report);
                           reason := Some (sr_reason report);
                           structuredFields := Some fields |},
                     t1 ++ [Generate scoring; Generate extraction])
                | Throw e, _ | _, Throw e =>
                    (Ok (failedOutcome email e),
                     t1 ++ [Generate scoring; Generate extraction])
                end
            end
        end
    end.
Proof.
  unfold processLeadEnrichment, tryCatch. unfold bind at 1.
  destruct (enrichmentSession env email cm em fm om si t)
    as [[[[[company domain] chatId] results] | e] t1]; [| done].
  unfold scoreLeadWithGemini, extractCrmLeadFieldsWithLLM, bind, generate,
    perform, liftResult, ret. cbn zeta.
  destruct (generateText env (length t1) _) as [text1 | e]; [| done].
  assert (Hscore : exists report, parseScore text1 = Ok report).
  { unfold parseScore, scoreTry. eauto. }
  destruct Hscore as [report ->].
  rewrite length_app. cbn [length]. rewrite Nat.add_1_r.
  rewrite <- app_assoc. cbn [app].
  destruct (generateText env (S (length t1)) _) as [text2 | e]; [| done].
  by destruct (parseCrmFields text2).
Qed.

Lemma processLeadEnrichment_returns email t :
  exists o t',
    processLeadEnrichment env email cm em fm om si t = (Ok o, t')
    /\ RunEnrichment.email o = email.
Proof.
  rewrite processLeadEnrichment_run.
  destruct (enrichmentSession env email cm em fm om si t)
    as [[[[[company domain] chatId] results] | e] t1]; [| eauto].
  cbn zeta.
  repeat match goal with
         | |- context [match ?x with Ok _ => _ | Throw _ => _ end] =>
             destruct x
         end; eauto.
Qed.

(** ** A batch *)

Lemma enrichOne_run valid results errors email t :
  exists o errors' t',
    enrichOne env valid cm em fm om si (results, errors) email t
    = (Ok (results ++ [o], errors'), t')
    /\ RunEnrichment.email o = email.
Proof.
  destruct (processLeadEnrichment_returns email t) as (o & t1 & Hrun & Ho).
  unfold enrichOne, tryCatch, bind. rewrite Hrun.
  match goal with
  | |- context [if ?b then sleep 3000 else ret tt] => destruct b
  end; unfold sleep, perform, ret; eauto.
Qed.

Lemma forEmails_run valid todo :
  forall results errors t,
  exists outs errors' t',
    forEmails env valid cm em fm om si todo (results, errors) t
    = (Ok (results ++ outs, errors'), t')
    /\ map RunEnrichment.email outs = todo.
Proof.
  induction todo as [| email todo IH]; intros results errors t.
  - exists [], errors, t. by rewrite app_nil_r.
  - destruct (enrichOne_run valid results errors email t)
      as (o & errors1 & t1 & Hone & Ho).
    destruct (IH (results ++ [o]) errors1 t1)
      as (outs & errors2 & t2 & Hrest & Houts).
    exists (o :: outs), errors2, t2. cbn [forEmails]. unfold bind at 1.
    rewrite Hone, Hrest, <- app_assoc. cbn [map]. by rewrite Ho, Houts.
Qed.
End Lead.

(** With providers resolved, [enrichLeads] processes the valid emails, each
    once, in order. *)
Lemma enrichLeads_processes env params t models :
  validEmails (emails params) <> [] ->
  resolveProviders env (length t) (chatModelProvider params)
    (embeddingModelProvider params) = Ok models ->
  exists response t',
    enrichLeads env params t = (Ok response, t')
    /\ map email (results response) = validEmails (emails params).
Proof.
  intros Hvalid Hmodels. unfold enrichLeads.
  destruct (validEmails (emails params)) as [| e1 valid] eqn:E; [done |].
  cbn [length Nat.eqb]. unfold tryCatch, bind, configureModelProviders, perform.
  rewrite Hmodels. destruct models as [chatModel embeddingModel].
  destruct (forEmails_run env chatModel embeddingModel
              (default "webSearch" (focusMode params))
              (default "speed" (optimizationMode params))
              (systemInstructions params) (e1 :: valid) (e1 :: valid)
              [] [] (t ++ [ResolveProviders]))
    as (outs & errors' & t' & Hrun & Houts).
  rewrite Hrun. unfold ret. eexists _, _. split; [reflexivity |].
  by cbn [results app].
Qed.

(** ** The scoring parse *)

(** C7, as stated, fails: a response announcing a total of 100 is parsed
    to the score 100, which is not in the range 0 to 90. *)
Lemma score_above_ninety : ~ scoreInRange "Total Score: 100/90".
Proof.
  intros (report & q & Hparse & Hscore & _ & Hle).
  vm_compute in Hparse. inversion Hparse; subst; clear Hparse.
  cbn [sr_score] in Hscore. inversion Hscore; subst; clear Hscore.
  unfold Qle in Hle. simpl in Hle. lia.
Qed.

(** C7, amended: for every response text the score of the report is a
    number that is not negative, never [NaN]: 0 when the text has no
    [Total Score:] followed by a numeral, and otherwise what [parseFloat]
    makes of the numeral written there, the double nearest to it.  Nothing
    limits it to 90: a numeral beyond the range of the doubles gives the
    positive infinity, and a numeral with more digits than a double holds
    is rounded. *)
Theorem score_is_nonnegative :
  (forall text,
     exists report,
       parseScore text = Ok report
       /\ nonnegative (sr_score report)
       /\ match exec scoreRegex text with
          | None => sr_score report = Num 0
          | Some m =>
              exists g,
                groups m !! 1%nat = Some g
                /\ headIs isDigit g = true
                /\ sr_score report = parseFloat g
          end)
  /\ (exists report,
        parseScore ("Total Score: " +:+ hugeNumeral) = Ok report
        /\ sr_score report = Infinity false)
  /\ (exists report,
        parseScore "Total Score: 9007199254740993/90" = Ok report
        /\ sr_score report = Num 9007199254740992).
Proof.
  split; [| split; [| eexists; split; [by vm_compute | reflexivity]]].
  - intros text. unfold parseScore, scoreTry.
    destruct (exec scoreRegex text) as [m |] eqn:E.
    + apply search_inv in E as (pre & w & post & _ & _ & Hm & _).
      apply scoreRegex_group in Hm as (d & rest & Hg & Hd).
      pose proof (parseFloat_numeral d rest Hd) as Hpos.
      rewrite Hg. eexists. cbn [sr_score]. eauto 8.
    + eexists. cbn [sr_score]. repeat split; done.
  - eexists. split; [by vm_compute | reflexivity].
Qed.

(** C8: the parse of the scoring response never throws; a text in which
    neither [Total Score:] nor [Revenue Score:] occurs gives the score 0
    and the reason [N/A]; the text [Total Score: 73/90], new line,
    [Reason: strong revenue] gives the score 73, also inside a longer text
    in which no [Total Score:] comes earlier. *)
Theorem parseScore_never_throws :
  (forall text, exists report, parseScore text = Ok report)
  /\ (forall text,
        includes "Total Score:" text = false ->
        includes "Revenue Score:" text = false ->
        parseScore text = Ok {| sr_reason := "N/A"; sr_score := Num 0 |})
  /\ parseScore scoredText = Ok {| sr_reason := "N/A"; sr_score := Num 73 |}
  /\ (forall pre post,
        includes "Total Score:" pre = false ->
        exists report,
          parseScore (pre +:+ scoredText +:+ post) = Ok report
          /\ sr_score report = Num 73).
Proof.
  split; [| split; [| split]].
  - intros text. unfold parseScore, scoreTry. eauto.
  - intros text Hscore Hreason. unfold parseScore, scoreTry.
    unfold scoreRegex, reasonRegex. cbn [Cat].
    by rewrite !exec_needs_literal.
  - by vm_compute.
  - intros pre post Hpre. unfold parseScore, scoreTry, exec.
    rewrite scoreRegex_search by done. cbn [groups].
    rewrite lookup_singleton_eq. eexists. split; [reflexivity |].
    by vm_compute.
Qed.

Lemma parseScore_never_throws_witness :
  parseScore "The model declined to answer."
  = Ok {| sr_reason := "N/A"; sr_score := Num 0 |}
  /\ exists report,
       parseScore ("Here is my rating. " +:+ scoredText +:+ " Thank you.")
       = Ok report
       /\ sr_score report = Num 73.
Proof.
  split.
  - apply (proj1 (proj2 parseScore_never_throws)); reflexivity.
  - apply (proj2 (proj2 (proj2 parseScore_never_throws))); reflexivity.
Defined.

(** ** The extraction parse *)

(** C9: the parse of the extraction response never throws; a text without
    an opening brace followed by a closing brace gives the empty object;
    the example text gives its [City] and [Country]; in general the text
    from the first opening brace to the first closing brace after it is
    parsed as JSON, and the empty object is returned when that fails. *)
Theorem parseCrmFields_never_throws :
  (forall text, exists fields, parseCrmFields text = Ok fields)
  /\ (forall text,
        (forall pre mid post, text <> pre +:+ "{" +:+ mid +:+ "}" +:+ post) ->
        parseCrmFields text = Ok (JObj ∅))
  /\ parseCrmFields (dq "noise {'City':'Austin','Country':null} trailing")
     = Ok (JObj (<["City" := JStr "Austin"]> (<["Country" := JNull]> ∅)))
  /\ (forall pre mid post,
        includes "{" pre = false ->
        includes "}" mid = false ->
        parseCrmFields (pre +:+ "{" +:+ mid +:+ "}" +:+ post)
        = match parse ("{" +:+ mid +:+ "}") with
          | Some fields => Ok fields
          | None => Ok (JObj ∅)
          end).
Proof.
  split; [| split; [| split]].
  - intros text. unfold parseCrmFields. destruct (crmTry text); eauto.
  - intros text Hno. unfold parseCrmFields, crmTry.
    destruct (exec braceRegex text) as [m |] eqn:E; [| done].
    apply exec_inv in E as (pre & post & Htext & Hw). exfalso.
    unfold braceRegex in Hw. cbn [Cat] in Hw.
    inversion Hw as [| | r1 r2 w1 w2 H1 H2 Hr Hm | | | | | | |]; subst.
    inversion H2 as [| | r1 r2 v1 v2 H3 H4 | | | | | | |]; subst.
    apply lang_Chr in H1 as ->. apply lang_Chr in H4 as ->.
    apply (Hno pre v1 post). rewrite <- Hm.
    by rewrite !string_app_assoc.
  - by vm_compute.
  - intros pre mid post Hpre Hmid. unfold parseCrmFields, crmTry.
    rewrite braceRegex_first by done. cbn [whole]. unfold JSON_parse.
    by destruct (parse _).
Qed.

Lemma parseCrmFields_never_throws_witness :
  parseCrmFields "I could not find any details." = Ok (JObj ∅)
  /\ parseCrmFields ("Sure: " +:+ "{" +:+ dq "'City':'Austin'" +:+ "}"
                     +:+ " and {more}")
     = Ok (JObj (<["City" := JStr "Austin"]> ∅)).
Proof.
  split.
  - apply (proj1 (proj2 parseCrmFields_never_throws)).
    intros pre mid post E.
    pose proof (includes_app "{" pre (mid +:+ "}" +:+ post)) as H.
    rewrite <- E in H. discriminate H.
  - rewrite (proj2 (proj2 (proj2 parseCrmFields_never_throws)))
      by reflexivity.
    reflexivity.
Defined.

(** ** The stream of one answer *)

(** C1 (the code departs from it): the record with type [error] makes the
    loop body throw an error carrying [boom], but the handler of the read
    loop takes the throw for an incomplete record: whatever is delivered,
    the loop returns normally when the stream ends.  On a stream holding
    that record alone [sendMessage] returns the empty answer, and the
    session records it as an answer, not as an error placeholder. *)
Theorem error_record_is_swallowed :
  (forall env, onMessage env recordBoom "" = Abrupt (JsError "boom") "")
  /\ (forall env reads partialChunk receivedMessage,
        exists value,
          readStream env reads None partialChunk receivedMessage = Ok value)
  /\ (forall env, readStream env [recordBoom +:+ LF] None "" "" = Ok "")
  /\ (askQuestion (streaming [recordBoom +:+ LF]) "c0ffee" someModel someModel
        "webSearch" "speed" None ([], []) "What does acme company do?" []).1
     = Ok ([{| question := "What does acme company do?"; answer := "" |}],
           [("human", "What does acme company do?"); ("assistant", "")]).
Proof.
  split; [| split; [| split]].
  - intros env. by vm_compute.
  - intros env reads. apply readStream_returns.
  - intros env. by vm_compute.
  - by vm_compute.
Qed.

(** C2 (the code departs from it): delivered in one chunk the three
    records give [Hello]; divided inside the second record, the same bytes
    give [HelHello], because the first record is processed again when the
    buffer is read a second time.  Of the divisions into two chunks, those
    that end the first chunk inside the second record (after byte 33 to
    61) give [HelHello], those that end it inside the third record (after
    byte 64 to 83) give [HelloHello], and the others give [Hello]. *)
Theorem fragmented_stream_repeats_fragments env :
  readStream env [helloStream] None "" "" = Ok "Hello"
  /\ helloFirstChunk +:+ helloSecondChunk = helloStream
  /\ readStream env [helloFirstChunk; helloSecondChunk] None "" ""
     = Ok "HelHello"
  /\ forall i,
       readStream env (dividedAt i) None "" ""
       = Ok (if (i <=? 32)%nat then "Hello"
             else if (i <=? 61)%nat then "HelHello"
             else if (i <=? 63)%nat then "Hello"
             else if (i <=? 83)%nat then "HelloHello"
             else "Hello").
Proof.
  split; [by vm_compute | split; [by vm_compute | split; [by vm_compute |]]].
  intros i. do 86 (destruct i as [| i]; [by vm_compute |]). by vm_compute.
Qed.

(** ** The session of one lead *)

Lemma length_turns steps :
  length (flat_map turnsOf steps) = (2 * length (List.filter answered steps))%nat.
Proof.
  induction steps as [| [request [answer | e]] steps IH]; [done | |];
    cbn [flat_map List.filter answered isOk snd turnsOf app length];
    rewrite IH; lia.
Qed.

(** The history carried by each request of a session. *)
Lemma asked_histories env chatId cm em fm om si questions :
  forall history t steps,
  asked env chatId cm em fm om si history t questions steps ->
  map (fun s : step => rq_history s.1) steps
  = map (fun k => history ++ flat_map turnsOf (firstn k steps))
      (seq 0 (length steps)).
Proof.
  induction questions as [| q qs IH]; intros history t [| s steps] H;
    cbn [asked] in H; try done.
  destruct H as (Hreq & _ & H). apply IH in H.
  cbn [map length seq]. rewrite <- seq_shift, map_map.
  cbn [firstn flat_map]. rewrite app_nil_r. f_equal.
  - by rewrite Hreq.
  - rewrite H. apply map_ext. intros k. by rewrite <- app_assoc.
Qed.

(** C3, as stated, fails: when the chat backend cannot be reached the
    question is recorded with an error placeholder and the history stays
    as it was. *)
Lemma history_unchanged_when_call_fails : ~ historyGrowsByTwo offline.
Proof.
  intros H.
  pose proof (H "c0ffee" someModel someModel "webSearch" "speed" None [] []
                "What does acme company do?" []) as H'.
  vm_compute in H'. specialize (H' _ _ eq_refl). discriminate H'.
Qed.

(** C3, amended: the history grows by exactly two entries, the question
    and its answer, for every question whose call succeeds, and stays as
    it is for a question whose call fails; every request carries the
    history reached so far, that of the earlier answered questions. *)
Theorem history_grows_with_answers env chatId cm em fm om si questions
    results history t :
  exists steps state',
    (forQuestions env chatId cm em fm om si questions (results, history) t).1
    = Ok state'
    /\ asked env chatId cm em fm om si history t questions steps
    /\ map (fun s : step => rq_content s.1) steps = questions
    /\ map (fun s : step => rq_history s.1) steps
       = map (fun k => history ++ flat_map turnsOf (firstn k steps))
           (seq 0 (length steps))
    /\ state'.2 = history ++ flat_map turnsOf steps
    /\ length state'.2
       = (length history + 2 * length (List.filter answered steps))%nat.
Proof.
  destruct (forQuestions_run env chatId cm em fm om si questions results
              history t) as (steps & Hrun & Hasked).
  exists steps. eexists. rewrite Hrun. cbn [fst snd].
  split; [reflexivity |]. cbn [snd]. split; [done |].
  split; [by eapply asked_questions |].
  split; [by eapply asked_histories |]. split; [done |].
  by rewrite length_app, length_turns.
Qed.

(** C4, as stated, fails: when the scoring call rejects, the outcome of
    the lead has no result at all, while eleven questions were generated
    and asked. *)
Lemma results_dropped_when_scoring_rejects :
  ~ resultCountIsQuestionCount scoringDown.
Proof.
  intros H.
  destruct (processLeadEnrichment scoringDown "joe@acme.io" someModel
              someModel "webSearch" "speed" None []) as [r t'] eqn:E.
  assert (Hr : r = Ok (failedOutcome "joe@acme.io" (JsError "quota exceeded"))).
  { apply (f_equal fst) in E. cbn [fst] in E. rewrite <- E. by vm_compute. }
  subst r. specialize (H _ _ _ _ _ _ _ _ _ "acme" "acme.io" E eq_refl).
  discriminate H.
Qed.

(** C4, amended: [processLeadEnrichment] never rejects, and the result list
    of its outcome is settled by the email and by the two model calls.
    For an email from which company and domain can be read, the one with
    an [@], the generated questions, eleven of them, are all asked,
    whatever the chat backend does; each gives one entry, in order, a
    question whose call fails giving the entry with the error placeholder;
    and the outcome holds exactly these entries when the scoring call and
    the extraction call both return, and no entry at all when one of them
    rejects.  For an email without [@] the outcome holds no entry. *)
Theorem lead_result_count env email cm em fm om si t :
  exists o t',
    processLeadEnrichment env email cm em fm om si t = (Ok o, t')
    /\ match extractCompanyInfo email with
       | Throw _ => includes "@" email = false /\ enrichmentData o = []
       | Ok (company, domain) =>
           let questions := generateEnrichmentQuestions company domain in
           exists steps,
             includes "@" email = true
             /\ asked env (randomHex env (length t) 20) cm em fm om si []
                  (t ++ [RandomBytes 20]) questions steps
             /\ let results := map entryOf steps in
                let t1 := (t ++ [RandomBytes 20]) ++ flat_map eventsOf steps in
                length results = length questions
                /\ length questions = 11%nat
                /\ map question results = questions
                /\ enrichmentData o
                   = if isOk (generateText env (length t1)
                                (scorePrompt env (formatResults results)))
                        && isOk (generateText env (S (length t1))
                                   (crmPrompt company (formatResults results)))
                     then results else []
       end.
Proof.
  rewrite processLeadEnrichment_run.
  destruct (extractCompanyInfo email) as [[company domain] | e] eqn:Hinfo.
  - destruct (enrichmentSession_run env cm em fm om si email company domain t
                Hinfo) as (steps & -> & Hasked).
    pose proof (asked_questions _ _ _ _ _ _ _ _ _ _ _ Hasked) as [Hq _].
    assert (Hat : includes "@" email = true).
    { destruct (includes "@" email) eqn:Hat; [done |].
      unfold extractCompanyInfo in Hinfo.
      by rewrite (split_none "@" email Hat) in Hinfo. }
    assert (Hmap : map question (map entryOf steps)
                   = generateEnrichmentQuestions company domain).
    { by rewrite map_question_entryOf. }
    assert (Hlen : length (map entryOf steps)
                   = length (generateEnrichmentQuestions company domain)).
    { by rewrite <- Hmap, !length_map. }
    cbn zeta.
    destruct (generateText env _ _) as [text1 | e1] eqn:H1;
      [| eexists _, _; split; [reflexivity |]; exists steps;
         repeat (split; [done |]); cbv zeta; by rewrite H1].
    destruct (generateText env (S _) _) as [text2 | e2] eqn:H2;
      [| eexists _, _; split; [reflexivity |]; exists steps;
         repeat (split; [done |]); cbv zeta; by rewrite H1, H2].
    assert (Hscore : exists report, parseScore text1 = Ok report).
    { unfold parseScore, scoreTry. eauto. }
    destruct Hscore as [report ->].
    assert (Hcrm : exists fields, parseCrmFields text2 = Ok fields).
    { unfold parseCrmFields. destruct (crmTry text2); eauto. }
    destruct Hcrm as [fields ->].
    eexists _, _. split; [reflexivity |]. exists steps.
    repeat (split; [done |]). cbv zeta. by rewrite H1, H2.
  - assert (Hat : includes "@" email = false).
    { destruct (includes "@" email) eqn:Hat; [| done].
      destruct (extractCompanyInfo_at email Hat) as (c & d & Hok). congruence. }
    unfold enrichmentSession, bind, liftResult. rewrite Hinfo.
    eexists _, _. split; [reflexivity |]. by cbn.
Qed.



(** C10: when the scoring call, or after it the extraction call, rejects,
    the outcome of the lead carries the error and nothing else: no chat
    identifier, no question and answer (those collected by the session are
    dropped), no score, no reason, and the empty object as structured
    fields. *)
Theorem failure_after_questions_discards_answers env email cm em fm om si t
    company domain chatId results t1 e :
  enrichmentSession env email cm em fm om si t
  = (Ok (company, domain, chatId, results), t1) ->
  generateText env (length t1) (scorePrompt env (formatResults results))
  = Throw e
  \/ (exists text,
        generateText env (length t1) (scorePrompt env (formatResults results))
        = Ok text
        /\ generateText env (S (length t1))
             (crmPrompt company (formatResults results)) = Throw e) ->
  (processLeadEnrichment env email cm em fm om si t).1
  = Ok {| email := email;
          company := fallbackCompany email;
          chatId := "";
          enrichmentData := [];
          error := Some (toErrorString e);
          score := None;
          reason := None;
          structuredFields := Some (JObj ∅) |}.
Proof.
  intros Hsession Hfail. rewrite processLeadEnrichment_run, Hsession.
  cbn zeta. destruct Hfail as [-> | (text & -> & ->)]; done.
Qed.

Lemma failure_after_questions_discards_answers_witness :
  (processLeadEnrichment scoringDown "joe@acme.io" someModel someModel
     "webSearch" "speed" None []).1
  = Ok {| email := "joe@acme.io";
          company := "acme";
          chatId := "";
          enrichmentData := [];
          error := Some "quota exceeded";
          score := None;
          reason := None;
          structuredFields := Some (JObj ∅) |}.
Proof.
  eapply (failure_after_questions_discards_answers scoringDown "joe@acme.io"
            someModel someModel "webSearch" "speed" None []
            _ _ _ _ _ (JsError "quota exceeded")).
  - vm_compute. reflexivity.
  - left. reflexivity.
Defined.

(** ** The batch *)

(** C5, as stated, fails: [enrichLeads] keeps both spellings of the
    address and processes two leads. *)
Lemma example_batch_is_not_deduplicated :
  validEmails exampleEmails <> ["a@b.com"]
  /\ exists response,
       (enrichLeads offline exampleParams []).1 = Ok response
       /\ map email (results response) = ["A@b.com"; "a@b.com"]
       /\ length (results response) <> 1%nat.
Proof.
  split; [by vm_compute |]. eexists. split; [by vm_compute |].
  by vm_compute.
Qed.

(** C5, amended: on the example list [enrichLeads] keeps, in order, the
    trimmed entries that contain an [@], [A@b.com] and [a@b.com], neither
    lowercased nor de-duplicated, and with providers resolved it processes
    these two leads.  Lowercasing and de-duplication are done by
    [validateRequest] in front of it, which normalizes the list to
    [a@b.com] and [bad-email] and rejects the request for the latter. *)
Theorem example_batch_keeps_two_leads :
  validEmails exampleEmails = ["A@b.com"; "a@b.com"]
  /\ (forall env t models,
        resolveProviders env (length t) None None = Ok models ->
        exists response t',
          enrichLeads env exampleParams t = (Ok response, t')
          /\ map email (results response) = ["A@b.com"; "a@b.com"])
  /\ normalizeEmails (map JStr exampleEmails) = ["a@b.com"; "bad-email"]
  /\ (forall numberToString,
        validateRequest numberToString
          (JObj {[ "emails" := JArr (map JStr exampleEmails) ]})
        = Invalid "Invalid email format(s): bad-email").
Proof.
  split; [by vm_compute | split; [| split; [by vm_compute |]]].
  - intros env t models Hmodels.
    destruct (enrichLeads_processes env exampleParams t models)
      as (response & t' & Hrun & Hemails); [by vm_compute | done |].
    exists response, t'. split; [done |]. rewrite Hemails. by vm_compute.
  - intros numberToString. by vm_compute.
Qed.

Lemma example_batch_keeps_two_leads_witness :
  exists response t',
    enrichLeads offline exampleParams [] = (Ok response, t')
    /\ map email (results response) = ["A@b.com"; "a@b.com"].
Proof.
  apply (proj1 (proj2 example_batch_keeps_two_leads) offline []
           (someModel, someModel)).
  reflexivity.
Defined.

(** * Further properties *)

(** ** Text, continued *)
Lemma rev_app_spec s : forall t, String.rev_app s t = String.rev s +:+ t.
Proof.
  unfold String.rev. induction s as [| a s IH]; intros t; [done |].
  cbn [String.rev_app]. rewrite IH, (IH (String a "")).
  by rewrite string_app_assoc.
Qed.

Lemma rev_cons a s : String.rev (String a s) = String.rev s +:+ String a "".
Proof. unfold String.rev at 1. cbn [String.rev_app]. apply rev_app_spec. Qed.

Lemma rev_app_distr s t : String.rev (s +:+ t) = String.rev t +:+ String.rev s.
Proof.
  induction s as [| a s IH].
  - by rewrite string_app_nil_l, string_app_nil_r.
  - rewrite string_app_cons, !rev_cons, IH. by rewrite string_app_assoc.
Qed.

Lemma rev_involutive s : String.rev (String.rev s) = s.
Proof.
  induction s as [| a s IH]; [done |].
  by rewrite rev_cons, rev_app_distr, IH.
Qed.

Lemma allChars_app p s t : allChars p (s +:+ t) = allChars p s && allChars p t.
Proof.
  induction s as [| a s IH]; [done |]. rewrite string_app_cons.
  cbn [allChars]. by rewrite IH, andb_assoc.
Qed.

Lemma allChars_rev p s : allChars p (String.rev s) = allChars p s.
Proof.
  induction s as [| a s IH]; [done |].
  rewrite rev_cons, allChars_app, IH. cbn [allChars].
  by rewrite andb_true_r, andb_comm.
Qed.

(** [trimStart] drops a run of white space at the head, [trimEnd] at the
    end. *)
Lemma trimStart_spec s :
  exists ws, s = ws +:+ trimStart s /\ allChars isSpace ws = true
             /\ headIs isSpace (trimStart s) = false.
Proof.
  induction s as [| a s (ws & Hs & Hws & Hhead)]; [by exists "" |].
  cbn [trimStart]. destruct (isSpace a) eqn:Ha.
  - exists (String a ws). rewrite string_app_cons, <- Hs. cbn [allChars].
    by rewrite Ha, Hws.
  - exists "". by cbn [headIs].
Qed.

Lemma trimEnd_spec s :
  exists ws, s = trimEnd s +:+ ws /\ allChars isSpace ws = true.
Proof.
  unfold trimEnd. destruct (trimStart_spec (String.rev s)) as (ws & Hs & Hws & _).
  exists (String.rev ws). split; [| by rewrite allChars_rev].
  rewrite <- rev_app_distr, <- Hs. by rewrite rev_involutive.
Qed.

Lemma trimStart_id s : headIs isSpace s = false -> trimStart s = s.
Proof. destruct s as [| a s]; [done |]. cbn. by intros ->. Qed.

Lemma headIs_allChars p s :
  allChars (fun c => negb (p c)) s = true -> headIs p s = false.
Proof.
  destruct s as [| a s]; [done |]. cbn. intros [H _]%andb_true_iff.
  by apply negb_true_iff.
Qed.

(** A text without white space is its own [trim]. *)
Lemma trim_id s : allChars (fun c => negb (isSpace c)) s = true -> trim s = s.
Proof.
  intros Hs. unfold trim, trimEnd.
  rewrite (trimStart_id s) by by apply headIs_allChars.
  rewrite trimStart_id; [apply rev_involutive |].
  apply headIs_allChars. by rewrite allChars_rev.
Qed.

Lemma startsWith_inv p s : startsWith p s = true -> exists rest, s = p +:+ rest.
Proof.
  revert s. induction p as [| a p IH]; intros s H; [by exists s |].
  destruct s as [| b s]; [done |]. cbn [startsWith] in H.
  apply andb_true_iff in H as [->%Ascii.eqb_eq H]. apply IH in H as [rest ->].
  by exists rest.
Qed.

Lemma includes_inv sub s :
  includes sub s = true -> exists pre post, s = pre +:+ sub +:+ post.
Proof.
  induction s as [| a s IH]; cbn [includes]; intros H.
  - rewrite orb_false_r in H. apply startsWith_inv in H as [rest ->].
    by exists "", rest.
  - apply orb_true_iff in H as [H | H].
    + apply startsWith_inv in H as [rest ->]. by exists "", rest.
    + apply IH in H as (pre & post & ->). by exists (String a pre), post.
Qed.

Lemma includes_append_r sub s t :
  includes sub s = true -> includes sub (s +:+ t) = true.
Proof.
  intros (pre & post & ->)%includes_inv.
  rewrite !string_app_assoc. apply includes_app.
Qed.

Lemma includes_append_l sub s t :
  includes sub t = true -> includes sub (s +:+ t) = true.
Proof.
  intros (pre & post & ->)%includes_inv.
  rewrite <- string_app_assoc. apply includes_app.
Qed.

(** What [trim] keeps it had: a text absent from [s] is absent from
    [trim s]. *)
Lemma includes_trim sub s : includes sub s = false -> includes sub (trim s) = false.
Proof.
  intros Hs. destruct (includes sub (trim s)) eqn:E; [| done].
  unfold trim in E.
  destruct (trimStart_spec s) as (ws1 & H1 & _ & _).
  destruct (trimEnd_spec (trimStart s)) as (ws2 & H2 & _).
  rewrite <- Hs, H1, H2. symmetry.
  apply includes_append_l, includes_append_r, E.
Qed.

Lemma includes_char_app c s t :
  includes (String c "") (s +:+ t)
  = includes (String c "") s || includes (String c "") t.
Proof.
  induction s as [| a s IH].
  - rewrite string_app_nil_l. by destruct t.
  - rewrite string_app_cons. cbn [includes]. rewrite !startsWith_cons, IH.
    cbn [startsWith]. by rewrite !andb_true_r, orb_assoc.
Qed.

Lemma allChars_excludes p c s :
  p c = false -> allChars p s = true -> includes (String c "") s = false.
Proof.
  intros Hc. induction s as [| a s IH]; [done |]. cbn [allChars includes].
  intros [Ha Hs]%andb_true_iff. rewrite (IH Hs), orb_false_r.
  rewrite startsWith_cons. cbn [startsWith]. rewrite andb_true_r.
  destruct (Ascii.eqb_spec c a) as [-> | _]; [congruence | done].
Qed.

(** [trim] removes white space only. *)
Lemma includes_char_trim c s :
  isSpace c = false ->
  includes (String c "") (trim s) = includes (String c "") s.
Proof.
  intros Hc. unfold trim.
  destruct (trimStart_spec s) as (ws1 & H1 & Hws1 & _).
  destruct (trimEnd_spec (trimStart s)) as (ws2 & H2 & Hws2).
  rewrite H1 at 2. rewrite H2 at 2. rewrite !includes_char_app.
  rewrite (allChars_excludes isSpace c ws1 Hc Hws1).
  rewrite (allChars_excludes isSpace c ws2 Hc Hws2).
  by rewrite orb_false_r.
Qed.

Lemma includes_nonempty sub s :
  includes sub s = true -> sub <> "" -> (0 <? String.length s)%nat = true.
Proof. destruct s; [by destruct sub | done]. Qed.

(** *** [split] *)
Lemma split_nonempty c s : split c s <> [].
Proof.
  destruct s as [| a s]; cbn [split]; [done |].
  destruct (Ascii.eqb a c); [done |]. by destruct (split c s).
Qed.

Lemma split_app_sep c a b :
  split c (a +:+ String c b) = split c a ++ split c b.
Proof.
  induction a as [| x a IH].
  - rewrite string_app_nil_l. cbn [split]. by rewrite Ascii.eqb_refl.
  - rewrite string_app_cons. cbn [split]. rewrite IH.
    destruct (Ascii.eqb x c); [done |].
    pose proof (split_nonempty c a). by destruct (split c a).
Qed.

(** ** The stream of an answer, continued *)

Lemma onMessage_blank env r : onMessage env "" r = Normal r.
Proof. reflexivity. Qed.

Lemma forMessages_app env l1 l2 r :
  forMessages env (l1 ++ l2) r
  = match forMessages env l1 r with
    | Normal r' => forMessages env l2 r'
    | stop => stop
    end.
Proof.
  revert r. induction l1 as [| m l1 IH]; intros r; [done |].
  cbn [app forMessages]. by destruct (onMessage env m r).
Qed.

Lemma split_closeLine a rest :
  split (ascii_of_N 10) (closeLine a +:+ rest)
  = split (ascii_of_N 10) a ++ split (ascii_of_N 10) rest.
Proof.
  unfold closeLine, LF. rewrite string_app_assoc, string_app_cons.
  rewrite string_app_nil_l. apply split_app_sep.
Qed.

(** X1: when every chunk of the stream ends with the end of a line, and no
    line of the stream makes the loop body throw, the division into chunks
    does not matter: reading the lines one chunk each gives what reading
    them in a single chunk gives. *)
Theorem aligned_chunks_are_transparent env bodies failure :
  forall r,
  (forall e r',
     forMessages env (split (ascii_of_N 10) (joinAll (map closeLine bodies))) r
     <> Abrupt e r') ->
  readStream env (map closeLine bodies) failure "" r
  = readStream env [joinAll (map closeLine bodies)] failure "" r.
Proof.
  induction bodies as [| a bodies IH]; intros r Hclean.
  - done.
  - cbn [map joinAll foldr] in *. fold (joinAll (map closeLine bodies)) in *.
    cbn [readStream]. rewrite !string_app_nil_l.
    rewrite split_closeLine in *. rewrite forMessages_app in *.
    replace (closeLine a) with (closeLine a +:+ "") at 1
      by apply string_app_nil_r.
    rewrite split_closeLine, forMessages_app.
    destruct (forMessages env (split (ascii_of_N 10) a) r)
      as [r1 | v | e r1] eqn:Ha.
    + cbn [split forMessages]. rewrite onMessage_blank.
      rewrite IH by done. cbn [readStream]. by rewrite string_app_nil_l.
    + done.
    + by destruct (Hclean e r1).
Qed.

Lemma aligned_chunks_are_transparent_witness :
  readStream offline (map closeLine [recordHel; recordLo; recordEnd]) None "" ""
  = readStream offline
      [joinAll (map closeLine [recordHel; recordLo; recordEnd])] None "" "".
Proof.
  apply (aligned_chunks_are_transparent offline
           [recordHel; recordLo; recordEnd] None "").
  intros e r' H. vm_compute in H. discriminate H.
Defined.

Lemma readStream_failure env reads failure :
  forall partialChunk receivedMessage e,
  readStream env reads failure partialChunk receivedMessage = Throw e ->
  failure = Some e.
Proof.
  induction reads as [| value reads IH]; intros p r e; cbn [readStream].
  - destruct failure; [by intros [= ->] | done].
  - destruct (forMessages env _ r); eauto. done.
Qed.

(** X2: the four ways in which [sendMessage] fails.  The rejection of the
    request is passed on.  A response that is not [ok] makes the call
    fail with an error that tells the status, the status text and, when
    the body can be read and is not empty, its first 200 characters.  An
    [ok] response without a body makes it fail with an error of its own.
    Otherwise the outcome of the call is that of the read loop, which
    fails only when a read is rejected, with the reason of that
    rejection: nothing that the stream delivers makes the call fail. *)
Theorem sendMessage_failure_modes env question chatId cm em fm om si history t :
  let outcome := (sendMessage env question chatId cm em fm om si history t).1 in
  match chatApi env (S (length t))
          (requestAt env chatId cm em fm om si t question history) with
  | Throw rejected => outcome = Throw rejected
  | Ok response =>
      if ok response then
        match body response with
        | None =>
            outcome = Throw (JsError "No response body received from chat API")
        | Some stream =>
            outcome = readStream env (chunks stream) (failure stream) "" ""
            /\ forall e, outcome = Throw e -> failure stream = Some e
        end
      else
        let tail :=
          match text response with
          | Ok body =>
              if String.eqb body "" then ""
              else " | body: " +:+ take 200 body
          | Throw _ => ""
          end in
        outcome
        = Throw (JsError ("Chat API " +:+ pretty (status response) +:+ " "
                          +:+ statusText response +:+ tail))
  end.
Proof.
  cbn zeta.
  unfold sendMessage, bind, randomBytes, fetchChat, perform, throw,
    liftResult, requestAt. cbn [fst snd].
  rewrite length_app. cbn [length]. rewrite Nat.add_1_r.
  destruct (chatApi env _ _) as [response | rejected]; [| done].
  destruct (ok response); cbn [negb].
  - destruct (body response) as [stream |]; cbn [fst]; [| done].
    split; [done |]. intros e H. by apply (readStream_failure env) in H.
  - by destruct (text response).
Qed.

(** *** Records of type [message] *)

Lemma parseChars_literal data rest :
  allChars isLiteralChar data = true ->
  parseChars (data +:+ String quote rest) = Some (data, rest).
Proof.
  induction data as [| c data IH]; intros H.
  - rewrite string_app_nil_l. cbn [parseChars]. by rewrite Ascii.eqb_refl.
  - cbn [allChars] in H. apply andb_true_iff in H as [Hc H].
    rewrite string_app_cons. cbn [parseChars]. rewrite (IH H).
    unfold isLiteralChar in Hc. apply negb_true_iff in Hc.
    apply orb_false_iff in Hc as [Hc H3]. apply orb_false_iff in Hc as [H1 H2].
    by rewrite H1, H2, H3.
Qed.

Lemma parseValue_string fuel s :
  parseValue (S fuel) (String quote s)
  = match parseChars s with
    | Some (body, rest) => Some (JStr body, rest)
    | None => None
    end.
Proof. reflexivity. Qed.

Lemma parseValue_members fuel c r :
  isWs c = false -> Ascii.eqb c "}" = false ->
  parseValue (S fuel) (String "{" (String c r))
  = membersOf fuel (String.length (String c r)) (String c r) ∅.
Proof.
  intros Hws Hc. cbn [parseValue skipWs].
  change (isWs "{") with false. cbv iota.
  change (Ascii.eqb "{" "{") with true. cbv iota.
  cbn [skipWs]. rewrite Hws, Hc. reflexivity.
Qed.

Lemma membersOf_string fuel key value n s1 s2 s3 o :
  parseChars s1 = Some (key, String ":" (String quote s2)) ->
  parseChars s2 = Some (value, s3) ->
  membersOf (S fuel) (S n) (String quote s1) o
  = match skipWs s3 with
    | String d s5 =>
        if Ascii.eqb d ","
        then membersOf (S fuel) n s5 (<[key := JStr value]> o)
        else if Ascii.eqb d "}"
        then Some (JObj (<[key := JStr value]> o), s5)
        else None
    | EmptyString => None
    end.
Proof.
  intros H1 H2. cbn [membersOf].
  change (skipWs (String quote s1)) with (String quote s1).
  cbv beta iota. change (Ascii.eqb quote quote) with true. cbv iota.
  rewrite H1.
  change (skipWs (String ":" (String quote s2)))
    with (String ":" (String quote s2)).
  cbv iota. change (Ascii.eqb ":" ":") with true. cbv iota.
  rewrite parseValue_string, H2. reflexivity.
Qed.

Lemma messageRecord_text data :
  messageRecord data
  = String "{" (String quote ("type" +:+ String quote (String ":" (String quote
      ("message" +:+ String quote (String "," (String quote
         ("data" +:+ String quote (String ":" (String quote
            (data +:+ String quote "}"))))))))))).
Proof.
  unfold messageRecord.
  set (p := dq "{'type':'message','data':'"). vm_compute in p. subst p.
  set (q := dq "'}"). vm_compute in q. subst q.
  rewrite !string_app_cons, string_app_nil_l. reflexivity.
Qed.

Lemma parseValue_messageRecord fuel data :
  allChars isLiteralChar data = true ->
  parseValue (S (S fuel)) (messageRecord data)
  = Some (JObj (<["data" := JStr data]> (<["type" := JStr "message"]> ∅)),
          "").
Proof.
  intros H. rewrite messageRecord_text.
  rewrite parseValue_members by reflexivity.
  change (String.length (String quote ?x)) with (S (String.length x)).
  rewrite (membersOf_string fuel "type" "message" _ _ _ _ ∅
             (parseChars_literal "type" _ eq_refl)
             (parseChars_literal "message" _ eq_refl)).
  cbn [skipWs]. change (isWs ",") with false. cbv iota.
  change (Ascii.eqb "," ",") with true. cbv iota.
  change (String.length ("type" +:+ ?x)) with (S (String.length ("ype" +:+ x))).
  rewrite (membersOf_string fuel "data" data _ _ _ _ _
             (parseChars_literal "data" _ eq_refl)
             (parseChars_literal data _ H)).
  reflexivity.
Qed.

Lemma JSON_parse_messageRecord data :
  allChars isLiteralChar data = true ->
  JSON_parse (messageRecord data)
  = Ok (JObj (<["data" := JStr data]> (<["type" := JStr "message"]> ∅))).
Proof.
  intros H. unfold JSON_parse, parse.
  assert (Hlen : exists fuel, String.length (messageRecord data) = S fuel).
  { rewrite messageRecord_text. cbn [String.length]. eauto. }
  destruct Hlen as [fuel ->]. by rewrite parseValue_messageRecord.
Qed.

Lemma trim_nonblank a s : isSpace a = false -> trim (String a s) <> "".
Proof.
  intros Ha Hblank. unfold trim in Hblank. cbn [trimStart] in Hblank.
  rewrite Ha in Hblank.
  destruct (trimEnd_spec (String a s)) as (ws & Hs & Hws).
  rewrite Hblank, string_app_nil_l in Hs. subst ws.
  cbn [allChars] in Hws. by rewrite Ha in Hws.
Qed.

Lemma literal_without_newline data :
  allChars isLiteralChar data = true ->
  includes LF data = false.
Proof.
  induction data as [| c data IH]; [done |]. cbn [allChars].
  intros [Hc H]%andb_true_iff. specialize (IH H). unfold LF in *.
  cbn [includes]. rewrite IH, startsWith_cons, orb_false_r.
  cbn [startsWith]. rewrite andb_true_r.
  destruct (Ascii.eqb_spec (ascii_of_N 10) c) as [<- | _]; [by vm_compute in Hc | done].
Qed.

Lemma split_messageRecord data :
  allChars isLiteralChar data = true ->
  split (ascii_of_N 10) (messageRecord data) = [messageRecord data].
Proof.
  intros H. apply split_none. unfold messageRecord.
  pose proof (literal_without_newline data H) as Hd. unfold LF in Hd.
  rewrite !includes_char_app, Hd. reflexivity.
Qed.

Lemma onMessage_messageRecord env data r :
  allChars isLiteralChar data = true ->
  onMessage env (messageRecord data) r = Normal (r +:+ data).
Proof.
  intros H. unfold onMessage.
  rewrite (JSON_parse_messageRecord data H).
  assert (Hblank : String.eqb (trim (messageRecord data)) "" = false).
  { apply String.eqb_neq. rewrite messageRecord_text. by apply trim_nonblank. }
  rewrite Hblank. cbn [getProp].
  rewrite lookup_insert_ne by done. rewrite !lookup_insert_eq.
  reflexivity.
Qed.

Lemma onMessage_recordEnd env r : onMessage env recordEnd r = Return (trim r).
Proof.
  unfold onMessage.
  replace (String.eqb (trim recordEnd) "") with false by (by vm_compute).
  replace (JSON_parse recordEnd)
    with (Ok (JObj (<["type" := JStr "messageEnd"]> ∅))) by (by vm_compute).
  cbn [getProp]. rewrite lookup_insert_eq, lookup_insert_ne by done.
  reflexivity.
Qed.

Lemma joinAll_app xs ys : joinAll (xs ++ ys) = joinAll xs +:+ joinAll ys.
Proof.
  induction xs as [| x xs IH]; cbn [app joinAll foldr].
  - by rewrite string_app_nil_l.
  - fold (joinAll (xs ++ ys)). fold (joinAll xs).
    by rewrite IH, string_app_assoc.
Qed.

Lemma forMessages_chunk env datas : forall tail r,
  Forall literal datas ->
  forMessages env (split (ascii_of_N 10) (chunkOf datas +:+ tail)) r
  = forMessages env (split (ascii_of_N 10) tail) (r +:+ joinAll datas).
Proof.
  induction datas as [| data datas IH]; intros tail r H.
  - unfold chunkOf. cbn [map joinAll foldr].
    by rewrite string_app_nil_l, string_app_nil_r.
  - apply Forall_cons in H as [Hd H].
    unfold chunkOf. cbn [map joinAll foldr]. fold (joinAll datas).
    fold (joinAll (map (fun data => closeLine (messageRecord data)) datas)).
    fold (chunkOf datas).
    rewrite string_app_assoc, split_closeLine, (split_messageRecord data Hd).
    cbn [app forMessages]. rewrite (onMessage_messageRecord env data r Hd).
    rewrite (IH tail _ H). by rewrite string_app_assoc.
Qed.

Lemma readStream_chunks env groups rest failure : forall r,
  Forall (Forall literal) groups ->
  readStream env (map chunkOf groups ++ rest) failure "" r
  = readStream env rest failure "" (r +:+ joinAll (concat groups)).
Proof.
  induction groups as [| g groups IH]; intros r H.
  - cbn [map app concat joinAll foldr]. by rewrite string_app_nil_r.
  - apply Forall_cons in H as [Hg H]. cbn [map app readStream concat].
    rewrite string_app_nil_l.
    rewrite <- (string_app_nil_r (chunkOf g)).
    rewrite (forMessages_chunk env g "" r Hg).
    cbn [split forMessages]. rewrite onMessage_blank.
    rewrite (IH _ H). by rewrite joinAll_app, string_app_assoc.
Qed.

(** X3: the answer of a well-formed stream.  When the chunks hold whole
    records of type [message], [sendMessage] returns the trimmed
    concatenation of their data in order, however the records are grouped
    into chunks: at the record of type [messageEnd], whatever follows it in
    the chunk or in later reads, even a rejected read; and at the end of a
    stream that has no such record. *)
Theorem answer_is_the_concatenated_messages
    env groups final trailing rest failure :
  Forall (Forall literal) groups ->
  Forall literal final ->
  readStream env
    (map chunkOf groups
     ++ (chunkOf final +:+ closeLine recordEnd +:+ trailing) :: rest)
    failure "" ""
  = Ok (trim (joinAll (concat groups) +:+ joinAll final))
  /\ readStream env (map chunkOf groups) None "" ""
     = Ok (trim (joinAll (concat groups))).
Proof.
  intros Hgroups Hfinal. split.
  - rewrite (readStream_chunks env groups _ failure "" Hgroups).
    cbn [readStream]. rewrite !string_app_nil_l.
    rewrite (forMessages_chunk env final _ _ Hfinal).
    rewrite split_closeLine.
    replace (split (ascii_of_N 10) recordEnd) with [recordEnd]
      by (by vm_compute).
    cbn [app forMessages]. by rewrite onMessage_recordEnd.
  - rewrite <- (app_nil_r (map chunkOf groups)).
    rewrite (readStream_chunks env groups [] None "" Hgroups).
    cbn [readStream]. by rewrite string_app_nil_l.
Qed.

Lemma answer_is_the_concatenated_messages_witness :
  readStream offline
    (map chunkOf [["Hel"; "lo"]; [" wor"]]
     ++ (chunkOf ["ld "] +:+ closeLine recordEnd +:+ "not a record")
        :: ["never read"])
    (Some (JsError "connection reset")) "" ""
  = Ok (trim (joinAll (concat [["Hel"; "lo"]; [" wor"]]) +:+ joinAll ["ld "]))
  /\ readStream offline (map chunkOf [["Hel"; "lo"]; [" wor"]]) None "" ""
     = Ok (trim (joinAll (concat [["Hel"; "lo"]; [" wor"]]))).
Proof.
  apply (answer_is_the_concatenated_messages offline
           [["Hel"; "lo"]; [" wor"]] ["ld "] "not a record" ["never read"]
           (Some (JsError "connection reset")));
    repeat constructor.
Defined.

(** ** The two model calls *)

(** A text that opens with a brace parses to an object, if at all. *)
Lemma parseValue_object fuel s v rest :
  parseValue fuel (String "{" s) = Some (v, rest) -> exists o, v = JObj o.
Proof.
  destruct fuel as [| fuel]; [done |]. cbn [parseValue skipWs].
  change (isWs "{") with false. cbn iota.
  change (Ascii.eqb "{" "{") with true. cbn iota.
  destruct (skipWs s) as [| c1 r1] eqn:Hs; [done |].
  destruct (Ascii.eqb c1 "}"); [intros [= <- _]; eauto |].
  generalize (String.length (String c1 r1)). intros n.
  generalize (String c1 r1). generalize (∅ : gmap string json).
  induction n as [| n IH]; intros o u; [done |].
  destruct (skipWs u) as [| q s1]; [done |].
  destruct (Ascii.eqb q quote); [| done].
  destruct (parseChars s1) as [[key s2] |]; [| done].
  destruct (skipWs s2) as [| colon s3]; [done |].
  destruct (Ascii.eqb colon ":"); [| done].
  destruct (parseValue fuel s3) as [[v' s4] |]; [| done].
  destruct (skipWs s4) as [| d s5]; [done |].
  destruct (Ascii.eqb d ","); [apply IH |].
  destruct (Ascii.eqb d "}"); [intros [= <- _]; eauto | done].
Qed.

Lemma parse_object s v : parse (String "{" s) = Some v -> exists o, v = JObj o.
Proof.
  unfold parse.
  destruct (parseValue _ (String "{" s)) as [[v' rest] |] eqn:E; [| done].
  apply parseValue_object in E as [o ->].
  destruct (skipWs rest); [intros [= <-]; eauto | done].
Qed.

Lemma parseCrmFields_object text : exists o, parseCrmFields text = Ok (JObj o).
Proof.
  unfold parseCrmFields, crmTry.
  destruct (exec braceRegex text) as [m |] eqn:E; [| eauto].
  apply exec_inv in E as (pre & post & _ & Hw).
  unfold braceRegex in Hw. cbn [Cat] in Hw.
  inversion Hw as [| | r1 r2 w1 w2 H1 H2 Hr Hm | | | | | | |]; subst.
  apply lang_Chr in H1 as ->.
  unfold JSON_parse. rewrite string_app_cons, string_app_nil_l.
  destruct (parse _) as [v |] eqn:Ev; [| eauto].
  apply parse_object in Ev as [o ->]. eauto.
Qed.

Lemma parseScore_report text :
  exists reason n,
    parseScore text = Ok {| sr_reason := reason; sr_score := n |}
    /\ nonnegative n.
Proof.
  unfold parseScore, scoreTry.
  destruct (exec scoreRegex text) as [m |] eqn:E.
  - apply search_inv in E as (pre & w & post & _ & _ & Hm & _).
    apply scoreRegex_group in Hm as (d & rest & Hg & Hd).
    pose proof (parseFloat_numeral d rest Hd) as Hpos.
    rewrite Hg. eauto.
  - eexists _, (Num 0). split; [reflexivity | done].
Qed.

Lemma reasonRegex_shape w :
  lang reasonRegex w ->
  exists a b post,
    w = "Revenue Score:" +:+ a +:+ LF +:+ b +:+ "Reason:" +:+ post.
Proof.
  unfold reasonRegex. cbn [Cat]. intros H.
  inversion H as [| | r1 r2 w1 v1 H1 H2 | | | | | | |]; subst; clear H.
  inversion H2 as [| | r1 r2 w2 v2 H3 H4 | | | | | | |]; subst; clear H2.
  inversion H4 as [| | r1 r2 w3 v3 H5 H6 | | | | | | |]; subst; clear H4.
  inversion H6 as [| | r1 r2 w4 v4 H7 H8 | | | | | | |]; subst; clear H6.
  apply (lang_Lit "Revenue Score:") in H1 as ->.
  apply (lang_Lit "Reason:") in H7 as ->.
  unfold Plus in H5.
  inversion H5 as [| | r1 r2 w5 v5 H9 H10 | | | | | | |]; subst; clear H5.
  inversion H9 as [| | r1 r2 w6 v6 H11 H12 | | | | | | |]; subst; clear H9.
  apply lang_Chr in H11 as ->.
  exists w2, (v6 +:+ v5), v4. unfold LF.
  by rewrite !string_app_assoc.
Qed.

Lemma parseScore_reason text :
  exists n reason,
    parseScore text = Ok {| sr_reason := reason; sr_score := n |}
    /\ nonnegative n
    /\ (reason = "N/A"
        \/ reason = trim text
           /\ exists pre a b post,
                text = pre +:+ "Revenue Score:" +:+ a +:+ LF +:+ b
                       +:+ "Reason:" +:+ post).
Proof.
  destruct (parseScore_report text) as (reason & n & Hparse & Hn).
  exists n, reason. split; [done |]. split; [done |].
  unfold parseScore, scoreTry in Hparse.
  destruct (exec reasonRegex text) as [m |] eqn:E.
  - right. injection Hparse as <- _. split; [done |].
    apply exec_inv in E as (pre & post & Htext & Hw).
    apply reasonRegex_shape in Hw as (a & b & post' & Hw).
    exists pre, a, b, (post' +:+ post). rewrite Htext, Hw.
    by rewrite !string_app_assoc.
  - left. by injection Hparse as <- _.
Qed.

(** X4: [scoreLeadWithGemini] makes one model call and fails only when that
    call fails.  Otherwise its score is a number that is not negative (a
    double at or above zero, or the positive infinity), and its reason is
    either [N/A] or the whole trimmed response, not the part
    after [Reason:]; the latter only for a response in which
    [Revenue Score:] is followed, after a line break, by [Reason:]. *)
Theorem scoring_fails_only_with_the_model env results t :
  let prompt := scorePrompt env (formatResults results) in
  match generateText env (length t) prompt with
  | Throw e =>
      scoreLeadWithGemini env results t = (Throw e, t ++ [Generate prompt])
  | Ok text =>
      exists n reason,
        scoreLeadWithGemini env results t
        = (Ok {| sr_reason := reason; sr_score := n |},
           t ++ [Generate prompt])
        /\ nonnegative n
        /\ (reason = "N/A"
            \/ reason = trim text
               /\ exists pre a b post,
                    text = pre +:+ "Revenue Score:" +:+ a +:+ LF +:+ b
                           +:+ "Reason:" +:+ post)
  end.
Proof.
  cbn zeta. unfold scoreLeadWithGemini, bind, generate, perform, liftResult.
  destruct (generateText env _ _) as [text | e]; [| done].
  destruct (parseScore_reason text) as (n & reason & -> & Hn & Hreason).
  eauto.
Qed.

(** X5: [extractCrmLeadFieldsWithLLM] makes one model call and fails only
    when that call fails.  Otherwise it returns an object, whatever the
    model answered: never an array, a string, a number or [null]. *)
Theorem extraction_returns_an_object env company results t :
  let prompt := crmPrompt company (formatResults results) in
  match generateText env (length t) prompt with
  | Throw e =>
      extractCrmLeadFieldsWithLLM env company results t
      = (Throw e, t ++ [Generate prompt])
  | Ok text =>
      exists fields,
        extractCrmLeadFieldsWithLLM env company results t
        = (Ok (JObj fields), t ++ [Generate prompt])
  end.
Proof.
  cbn zeta.
  unfold extractCrmLeadFieldsWithLLM, bind, generate, perform, liftResult.
  destruct (generateText env _ _) as [text | e]; [| done].
  destruct (parseCrmFields_object text) as [fields ->]. eauto.
Qed.

(** ** One lead, continued *)

(** X6: the company and the domain of an email.  The domain is the text
    between the first [@] and the second one, if any, and the company is
    the domain up to its first dot: what follows a second [@] is not
    looked at. *)
Theorem company_of_email local name rest more :
  includes "@" local = false ->
  includes "@" name = false ->
  includes "." name = false ->
  includes "@" rest = false ->
  extractCompanyInfo (local +:+ "@" +:+ name +:+ "." +:+ rest)
  = Ok (name, name +:+ "." +:+ rest)
  /\ extractCompanyInfo
       (local +:+ "@" +:+ name +:+ "." +:+ rest +:+ "@" +:+ more)
     = Ok (name, name +:+ "." +:+ rest).
Proof.
  intros Hlocal Hname Hdot Hrest.
  assert (Hdomain : includes "@" (name +:+ "." +:+ rest) = false).
  { rewrite !includes_char_app, Hname, Hrest. done. }
  assert (Hcompany : List.hd "" (split "." (name +:+ "." +:+ rest)) = name).
  { change ("." +:+ rest) with (String "." rest).
    rewrite split_app_sep, (split_none "." name Hdot). done. }
  unfold extractCompanyInfo. split.
  - change ("@" +:+ name +:+ "." +:+ rest)
      with (String "@" (name +:+ "." +:+ rest)).
    rewrite split_app_sep, (split_none "@" local Hlocal),
      (split_none "@" _ Hdomain).
    cbn [app lookup list_lookup]. by rewrite Hcompany.
  - replace (local +:+ "@" +:+ name +:+ "." +:+ rest +:+ "@" +:+ more)
      with (local +:+ String "@" ((name +:+ "." +:+ rest) +:+ String "@" more)).
    + rewrite !split_app_sep, (split_none "@" local Hlocal),
        (split_none "@" _ Hdomain).
      cbn [app lookup list_lookup]. by rewrite Hcompany.
    + f_equal. change (String "@" ?x) with ("@" +:+ x).
      by rewrite !string_app_assoc.
Qed.

Lemma company_of_email_witness :
  extractCompanyInfo ("jane.doe" +:+ "@" +:+ "acme" +:+ "." +:+ "co.uk")
  = Ok ("acme", "acme" +:+ "." +:+ "co.uk")
  /\ extractCompanyInfo
       ("jane.doe" +:+ "@" +:+ "acme" +:+ "." +:+ "co.uk" +:+ "@" +:+ "x.org")
     = Ok ("acme", "acme" +:+ "." +:+ "co.uk").
Proof.
  apply (company_of_email "jane.doe" "acme" "co.uk" "x.org"); reflexivity.
Defined.

Lemma extractCompanyInfo_throws email e :
  extractCompanyInfo email = Throw e ->
  includes "@" email = false /\ e = cannotRead "undefined" "split".
Proof.
  unfold extractCompanyInfo. intros H.
  destruct (includes "@" email) eqn:E.
  - apply split_at in E as [domain E]. by rewrite E in H.
  - split; [done |]. destruct (split "@" email !! 1%nat); congruence.
Qed.

Section LeadOutcome.
Variable env : Env.
Variables (cm em : ModelProvider) (fm om : string) (si : option string).

Lemma enrichmentSession_throws email t e t1 :
  enrichmentSession env email cm em fm om si t = (Throw e, t1) ->
  extractCompanyInfo email = Throw e /\ t1 = t.
Proof.
  destruct (extractCompanyInfo email) as [[company domain] | e'] eqn:E.
  - destruct (enrichmentSession_run env cm em fm om si email company domain t E)
      as (steps & Hrun & _).
    rewrite Hrun. done.
  - unfold enrichmentSession, bind, liftResult. rewrite E. by intros [= -> ->].
Qed.

(** X7: [processLeadEnrichment] never rejects, and its outcome is of one of
    two kinds.  A complete outcome has no error: the company of the email,
    the chat id drawn at the start, one result for each of the questions in
    order, a score that is a number and not negative (a double at or above
    zero, or the positive infinity), a reason, and structured fields that
    are an object.  A failed outcome carries the
    error and nothing else: no chat id, no result, no score, no reason,
    empty fields. *)
Theorem lead_is_complete_or_failed email t :
  exists o t',
    processLeadEnrichment env email cm em fm om si t = (Ok o, t')
    /\ RunEnrichment.email o = email
    /\ match error o with
       | Some _ => exists e, o = failedOutcome email e
       | None =>
           exists domain n r fields,
             extractCompanyInfo email = Ok (company o, domain)
             /\ chatId o = randomHex env (length t) 20
             /\ map question (enrichmentData o)
                = generateEnrichmentQuestions (company o) domain
             /\ score o = Some n /\ nonnegative n
             /\ reason o = Some r
             /\ structuredFields o = Some (JObj fields)
       end.
Proof.
  rewrite processLeadEnrichment_run.
  destruct (enrichmentSession env email cm em fm om si t)
    as [[[[[company domain] chatId] results] | e] t1] eqn:Hrun;
    [| eexists _, _; split; [reflexivity |]; split; [done |];
       cbn [error failedOutcome]; eauto].
  cbn zeta.
  destruct (generateText env (length t1) _) as [text1 | e];
    [| eexists _, _; split; [reflexivity |]; split; [done |];
       cbn [error failedOutcome]; eauto].
  destruct (generateText env (S (length t1)) _) as [text2 | e];
    [| eexists _, _; split; [reflexivity |]; split; [done |];
       cbn [error failedOutcome]; eauto].
  destruct (parseScore_report text1) as (r & n & -> & Hn).
  destruct (parseCrmFields_object text2) as [fields ->].
  eexists _, _. split; [reflexivity |]. split; [done |].
  cbn [error RunEnrichment.company RunEnrichment.chatId enrichmentData
       score reason structuredFields sr_score sr_reason].
  destruct (extractCompanyInfo email) as [[company' domain'] | e] eqn:E.
  - destruct (enrichmentSession_run env cm em fm om si email company' domain' t E)
      as (steps & Hrun' & Hasked).
    rewrite Hrun in Hrun'. injection Hrun' as -> -> -> -> _.
    apply asked_questions in Hasked as [Hq' _].
    exists domain', n, r, fields. rewrite map_question_entryOf.
    by repeat (split; [done |]).
  - unfold enrichmentSession, bind, liftResult in Hrun. by rewrite E in Hrun.
Qed.

(** X8: an email without [@] gives a failed outcome at once, with the
    company [unknown] and the message of the [TypeError] that the read of
    [split] on [undefined] throws; nothing is asked and no model is
    called. *)
Theorem lead_without_at_sign email t :
  includes "@" email = false ->
  processLeadEnrichment env email cm em fm om si t
  = (Ok {| email := email;
           company := "unknown";
           chatId := "";
           enrichmentData := [];
           error := Some "Cannot read properties of undefined (reading 'split')";
           score := None;
           reason := None;
           structuredFields := Some (JObj ∅) |}, t).
Proof.
  intros H. apply split_none in H.
  rewrite processLeadEnrichment_run.
  unfold enrichmentSession, bind, liftResult, extractCompanyInfo.
  rewrite H. cbn [lookup list_lookup]. unfold failedOutcome, fallbackCompany.
  rewrite H. reflexivity.
Qed.

Lemma processLeadEnrichment_events email t :
  exists added,
    (processLeadEnrichment env email cm em fm om si t).2 = t ++ added
    /\ forallb isLeadEvent added = true.
Proof.
  rewrite processLeadEnrichment_run.
  destruct (enrichmentSession env email cm em fm om si t)
    as [[[[[company domain] chatId] results] | e] t1] eqn:Hrun.
  - assert (Ht1 : exists added, t1 = t ++ added
                                /\ forallb isLeadEvent added = true).
    { destruct (extractCompanyInfo email) as [[company' domain'] | e] eqn:E.
      - destruct (enrichmentSession_run env cm em fm om si email company'
                    domain' t E) as (steps & Hrun' & _).
        rewrite Hrun in Hrun'. injection Hrun' as _ _ _ _ ->.
        exists ([RandomBytes 20] ++ flat_map eventsOf steps).
        split; [by rewrite app_assoc |].
        rewrite forallb_app. cbn [forallb isLeadEvent andb].
        clear. induction steps as [| s steps IH]; [done |].
        cbn [flat_map]. rewrite forallb_app, IH, andb_true_r.
        unfold eventsOf. by destruct (answered s).
      - unfold enrichmentSession, bind, liftResult in Hrun.
        by rewrite E in Hrun. }
    destruct Ht1 as (added & -> & Hadded). cbn zeta.
    repeat match goal with
           | |- context [match ?x with Ok _ => _ | Throw _ => _ end] =>
               destruct x
           end; cbn [snd]; rewrite <- app_assoc; eexists; (split; [reflexivity |]);
      rewrite forallb_app, Hadded; done.
  - apply enrichmentSession_throws in Hrun as [_ ->]. exists [].
    by rewrite app_nil_r.
Qed.

End LeadOutcome.

Lemma lead_without_at_sign_witness :
  processLeadEnrichment offline "bad-email" someModel someModel
    "webSearch" "speed" None []
  = (Ok {| email := "bad-email";
           company := "unknown";
           chatId := "";
           enrichmentData := [];
           error := Some "Cannot read properties of undefined (reading 'split')";
           score := None;
           reason := None;
           structuredFields := Some (JObj ∅) |}, []).
Proof.
  apply (lead_without_at_sign offline someModel someModel "webSearch" "speed"
           None "bad-email" []).
  reflexivity.
Defined.

(** X9: with an [@] in the email, a lead fails only when one of its two
    model calls fails.  The error of the outcome is the text of what the
    scoring call of this lead threw, or else of what its extraction call
    threw, and there is no error when both returned.  No failure of the
    chat backend fails the lead: a question that cannot be asked leaves
    its placeholder among the results. *)
Theorem lead_fails_only_with_the_models env email cm em fm om si t o :
  includes "@" email = true ->
  (processLeadEnrichment env email cm em fm om si t).1 = Ok o ->
  exists company domain steps,
    extractCompanyInfo email = Ok (company, domain)
    /\ asked env (randomHex env (length t) 20) cm em fm om si []
         (t ++ [RandomBytes 20]) (generateEnrichmentQuestions company domain)
         steps
    /\ let results := map entryOf steps in
       let t1 := (t ++ [RandomBytes 20]) ++ flat_map eventsOf steps in
       error o
       = match generateText env (length t1)
                 (scorePrompt env (formatResults results)) with
         | Throw e => Some (toErrorString e)
         | Ok _ =>
             match generateText env (S (length t1))
                     (crmPrompt company (formatResults results)) with
             | Throw e => Some (toErrorString e)
             | Ok _ => None
             end
         end.
Proof.
  intros Hat. rewrite processLeadEnrichment_run.
  destruct (extractCompanyInfo_at email Hat) as (company & domain & Hinfo).
  destruct (enrichmentSession_run env cm em fm om si email company domain t Hinfo)
    as (steps & -> & Hasked).
  intros Ho. exists company, domain, steps.
  split; [done |]. split; [done |]. cbn zeta in *.
  destruct (generateText env _ _) as [text1 | e1];
    [| by injection Ho as <-].
  destruct (generateText env (S _) _) as [text2 | e2];
    [| by injection Ho as <-].
  destruct (parseScore_report text1) as (r & n & Hscore & _).
  destruct (parseCrmFields_object text2) as [fields Hcrm].
  rewrite Hscore, Hcrm in Ho. by injection Ho as <-.
Qed.

Lemma lead_fails_only_with_the_models_witness :
  exists company domain steps,
    extractCompanyInfo "joe@acme.io" = Ok (company, domain)
    /\ asked scoringDown (randomHex scoringDown 0 20) someModel someModel
         "webSearch" "speed" None [] ([] ++ [RandomBytes 20])
         (generateEnrichmentQuestions company domain) steps
    /\ let results := map entryOf steps in
       let t1 := ([] ++ [RandomBytes 20]) ++ flat_map eventsOf steps in
       error (failedOutcome "joe@acme.io" (JsError "quota exceeded"))
       = match generateText scoringDown (length t1)
                 (scorePrompt scoringDown (formatResults results)) with
         | Throw e => Some (toErrorString e)
         | Ok _ =>
             match generateText scoringDown (S (length t1))
                     (crmPrompt company (formatResults results)) with
             | Throw e => Some (toErrorString e)
             | Ok _ => None
             end
         end.
Proof.
  apply (lead_fails_only_with_the_models scoringDown "joe@acme.io"
           someModel someModel "webSearch" "speed" None []
           (failedOutcome "joe@acme.io" (JsError "quota exceeded"))).
  - reflexivity.
  - by vm_compute.
Defined.

(** X10: what a lead does, in order.  For an email with an [@] the chat
    id is drawn first; then the eleven questions generated for the email
    are asked in order, each exchange being a message id, the request of
    that question carrying the chat id and, exactly when the call
    returned an answer, the delay of two seconds; then the scoring call is
    made, and after it the extraction call unless the scoring call
    failed.  Nothing else is done. *)
Theorem lead_effects env email cm em fm om si t :
  includes "@" email = true ->
  exists company domain steps,
    extractCompanyInfo email = Ok (company, domain)
    /\ asked env (randomHex env (length t) 20) cm em fm om si []
         (t ++ [RandomBytes 20]) (generateEnrichmentQuestions company domain)
         steps
    /\ length steps = 11%nat
    /\ Forall (fun s : step => rq_chatId s.1 = randomHex env (length t) 20)
         steps
    /\ let results := map entryOf steps in
       let exchanges := t ++ RandomBytes 20 :: flat_map eventsOf steps in
       let scoring := scorePrompt env (formatResults results) in
       let extraction := crmPrompt company (formatResults results) in
       (processLeadEnrichment env email cm em fm om si t).2
       = exchanges
         ++ Generate scoring
            :: (if isOk (generateText env (length exchanges) scoring)
                then [Generate extraction] else []).
Proof.
  intros Hat. rewrite processLeadEnrichment_run.
  destruct (extractCompanyInfo_at email Hat) as (company & domain & Hinfo).
  destruct (enrichmentSession_run env cm em fm om si email company domain t Hinfo)
    as (steps & -> & Hasked).
  pose proof (asked_questions _ _ _ _ _ _ _ _ _ _ _ Hasked) as [Hq Hid].
  exists company, domain, steps.
  split; [done |]. split; [done |].
  split; [by rewrite <- (length_map (fun s : step => rq_content s.1)), Hq |].
  split; [done |].
  cbn zeta. rewrite <- !app_assoc. cbn [app].
  destruct (generateText env _ _) as [text1 | e1]; [| done]. cbn [isOk].
  destruct (generateText env (S _) _) as [text2 | e2]; [| done].
  destruct (parseScore_report text1) as (r & n & -> & _).
  by destruct (parseCrmFields_object text2) as [fields ->].
Qed.

Lemma lead_effects_witness :
  exists company domain steps,
    extractCompanyInfo "joe@acme.io" = Ok (company, domain)
    /\ asked offline (randomHex offline 0 20) someModel someModel
         "webSearch" "speed" None [] ([] ++ [RandomBytes 20])
         (generateEnrichmentQuestions company domain) steps
    /\ length steps = 11%nat
    /\ Forall (fun s : step => rq_chatId s.1 = randomHex offline 0 20) steps
    /\ let results := map entryOf steps in
       let exchanges := [] ++ RandomBytes 20 :: flat_map eventsOf steps in
       let scoring := scorePrompt offline (formatResults results) in
       let extraction := crmPrompt company (formatResults results) in
       (processLeadEnrichment offline "joe@acme.io" someModel someModel
          "webSearch" "speed" None []).2
       = exchanges
         ++ Generate scoring
            :: (if isOk (generateText offline (length exchanges) scoring)
                then [Generate extraction] else []).
Proof.
  apply (lead_effects offline "joe@acme.io" someModel someModel
           "webSearch" "speed" None []).
  reflexivity.
Defined.

(** ** A batch, continued *)

Lemma validEmails_none emails :
  Forall (fun email => includes "@" email = false) emails ->
  validEmails emails = [].
Proof.
  unfold validEmails. induction 1 as [| email emails H _ IH]; [done |].
  cbn [map List.filter]. by rewrite (includes_trim _ _ H).
Qed.

(** The emails [enrichLeads] keeps: the trimmed entries with an [@]. *)
Lemma validEmails_filter emails :
  validEmails emails = List.filter (includes "@") (map trim emails).
Proof.
  unfold validEmails. induction (map trim emails) as [| x l IH]; [done |].
  cbn [List.filter]. rewrite IH. destruct (includes "@" x) eqn:E; [| done].
  by rewrite (includes_nonempty "@" x E).
Qed.

Lemma filter_isSleep_lead added :
  forallb isLeadEvent added = true ->
  List.filter (isSleep 3000) added = []
  /\ forallb (fun ev => negb (isResolve ev)) added = true.
Proof.
  induction added as [| ev added IH]; [done |]. cbn [forallb].
  intros [Hev H]%andb_true_iff. apply IH in H as [H1 H2].
  cbn [List.filter forallb]. rewrite H1, H2.
  destruct ev; try done. cbn [isLeadEvent isSleep] in *.
  apply N.eqb_eq in Hev as ->. done.
Qed.

Section Batch.
Variable env : Env.
Variables (cm em : ModelProvider) (fm om : string) (si : option string).

Lemma enrichOne_spec valid results errors email t :
  exists o added,
    enrichOne env valid cm em fm om si (results, errors) email t
    = (Ok (results ++ [o], errors ++ omap failureLine [o]),
       t ++ added ++ (if notLast valid email then [Sleep 3000] else []))
    /\ RunEnrichment.email o = email
    /\ forallb isLeadEvent added = true.
Proof.
  destruct (processLeadEnrichment_returns env cm em fm om si email t)
    as (o & t1 & Hrun & Ho).
  destruct (processLeadEnrichment_events env cm em fm om si email t)
    as (added & Ht & Hadded).
  rewrite Hrun in Ht. cbn [snd] in Ht. subst t1.
  exists o, added. split; [| done].
  unfold enrichOne, tryCatch, bind. rewrite Hrun.
  fold (notLast valid email).
  assert (Herr : match error o with
                 | Some e => if String.eqb e "" then errors
                             else errors ++ ["Failed " +:+ email +:+ ": " +:+ e]
                 | None => errors
                 end = errors ++ omap failureLine [o]).
  { cbn [omap list_omap]. unfold failureLine. rewrite Ho.
    destruct (error o) as [e |]; [| by rewrite app_nil_r].
    destruct (String.eqb e ""); [by rewrite app_nil_r | done]. }
  rewrite Herr.
  destruct (notLast valid email); unfold sleep, perform, ret.
  - by rewrite <- app_assoc.
  - by rewrite !app_nil_r.
Qed.

Lemma forEmails_spec valid todo :
  forall results errors t,
  exists outs added,
    forEmails env valid cm em fm om si todo (results, errors) t
    = (Ok (results ++ outs, errors ++ omap failureLine outs), t ++ added)
    /\ map RunEnrichment.email outs = todo
    /\ pauses added = length (List.filter (notLast valid) todo)
    /\ forallb (fun ev => negb (isResolve ev)) added = true.
Proof.
  induction todo as [| email todo IH]; intros results errors t.
  - exists [], []. by rewrite !app_nil_r.
  - destruct (enrichOne_spec valid results errors email t)
      as (o & added1 & Hone & Ho & Hadded1).
    destruct (IH (results ++ [o]) (errors ++ omap failureLine [o])
                (t ++ added1 ++ (if notLast valid email then [Sleep 3000] else [])))
      as (outs & added2 & Hrest & Houts & Hcount & Hnone).
    exists (o :: outs),
      (added1 ++ (if notLast valid email then [Sleep 3000] else []) ++ added2).
    cbn [forEmails]. unfold bind at 1. rewrite Hone, Hrest.
    cbn [map]. rewrite Ho, Houts, <- !app_assoc.
    split; [by rewrite <- omap_app |]. split; [done |].
    destruct (filter_isSleep_lead added1 Hadded1) as [Hsleep Hresolve].
    unfold pauses in *.
    rewrite !List.filter_app, !forallb_app, Hsleep, Hresolve, Hnone.
    cbn [List.filter app]. rewrite length_app, Hcount.
    by destruct (notLast valid email).
Qed.
End Batch.

Lemma indexOf_app_l x l1 l2 :
  x ∈ l1 ->
  exists i, indexOf x (l1 ++ l2) = Some i /\ (i < length l1)%nat.
Proof.
  induction l1 as [| y l1 IH]; intros Hin; [by apply elem_of_nil in Hin |].
  cbn [app indexOf length]. destruct (String.eqb_spec y x) as [-> | Hne].
  - exists 0%nat. split; [done | lia].
  - apply elem_of_cons in Hin as [-> | Hin]; [done |].
    destruct (IH Hin) as (i & -> & Hi). exists (S i). split; [done | lia].
Qed.

Lemma indexOf_app_r x l1 l2 :
  x ∉ l1 ->
  indexOf x (l1 ++ l2) = option_map (fun i => (length l1 + i)%nat) (indexOf x l2).
Proof.
  induction l1 as [| y l1 IH]; intros Hin; cbn [app indexOf length].
  - by destruct (indexOf x l2).
  - apply not_elem_of_cons in Hin as [Hne Hin].
    destruct (String.eqb_spec y x) as [-> | _]; [done |].
    rewrite (IH Hin). by destruct (indexOf x l2).
Qed.

(** In a list without repetition every email but the last one passes the
    test of line 668. *)
Lemma notLast_unique valid :
  NoDup valid ->
  length (List.filter (notLast valid) valid) = (length valid - 1)%nat.
Proof.
  destruct valid as [| x0 valid0] using rev_ind; [done |]. clear IHvalid0.
  rename valid0 into init, x0 into final.
  intros [Hinit [Hdisj Hfinal]]%NoDup_app.
  rewrite List.filter_app, length_app. cbn [List.filter].
  assert (Hf : notLast (init ++ [final]) final = false).
  { unfold notLast. rewrite indexOf_app_r, length_app.
    - cbn [indexOf]. rewrite String.eqb_refl. cbn [option_map length].
      apply Z.ltb_ge. lia.
    - intros Hin. apply (Hdisj _ Hin). by apply list_elem_of_singleton. }
  rewrite Hf. cbn [length].
  assert (Hi : forall l, (forall x, x ∈ l -> x ∈ init) ->
             List.filter (notLast (init ++ [final])) l = l).
  { induction l as [| x l IH]; intros Hl; [done |]. cbn [List.filter].
    destruct (indexOf_app_l x init [final]) as (i & Hidx & Hlt).
    { apply Hl. by left. }
    unfold notLast at 1. rewrite Hidx, length_app. cbn [length].
    replace (Z.of_nat i <? Z.of_nat (length init + 1) - 1)%Z with true
      by (symmetry; apply Z.ltb_lt; lia).
    rewrite IH; [done |]. intros y Hy. apply Hl. by right. }
  rewrite Hi by done. rewrite length_app. cbn [length]. lia.
Qed.

(** [enrichLeads] with at least one valid email and the providers
    resolved. *)
Lemma enrichLeads_resolved env params t models :
  validEmails (emails params) <> [] ->
  resolveProviders env (length t) (chatModelProvider params)
    (embeddingModelProvider params) = Ok models ->
  exists outs added,
    enrichLeads env params t
    = (Ok {| success := (length (omap failureLine outs) =? 0)%nat;
             results := outs;
             errors := omap failureLine outs |},
       t ++ ResolveProviders :: added)
    /\ map email outs = validEmails (emails params)
    /\ pauses added
       = length (List.filter (notLast (validEmails (emails params)))
                   (validEmails (emails params)))
    /\ forallb (fun ev => negb (isResolve ev)) added = true.
Proof.
  intros Hvalid Hmodels. unfold enrichLeads.
  destruct (validEmails (emails params)) as [| e1 rest] eqn:E; [done |].
  cbn [length Nat.eqb]. unfold tryCatch, bind, configureModelProviders, perform.
  rewrite Hmodels. destruct models as [chatModel embeddingModel].
  destruct (forEmails_spec env chatModel embeddingModel
              (default "webSearch" (focusMode params))
              (default "speed" (optimizationMode params))
              (systemInstructions params) (e1 :: rest) (e1 :: rest)
              [] [] (t ++ [ResolveProviders]))
    as (outs & added & Hrun & Houts & Hcount & Hnone).
  rewrite Hrun. unfold ret. exists outs, added.
  rewrite <- app_assoc. done.
Qed.

(** X11: [enrichLeads] never rejects, and [success] tells exactly whether
    [errors] is empty.  Without a valid email it answers at once with one
    error and no effect; when the providers cannot be resolved it answers
    with one configuration error, the message of the error or
    [Unknown error] for a value that is no error, and no lead is
    processed; otherwise it returns one result for each valid email, in
    order, and one error line for each result that has a non-empty
    error. *)
Theorem batch_response env params t :
  exists response t',
    enrichLeads env params t = (Ok response, t')
    /\ (success response = true <-> errors response = [])
    /\ match validEmails (emails params) with
       | [] =>
           results response = []
           /\ errors response = ["No valid email addresses provided"]
           /\ t' = t
       | _ :: _ =>
           match resolveProviders env (length t) (chatModelProvider params)
                   (embeddingModelProvider params) with
           | Throw e =>
               results response = []
               /\ errors response
                  = ["Configuration error: "
                     +:+ match e with
                         | JsError message => message
                         | _ => "Unknown error"
                         end]
               /\ t' = t ++ [ResolveProviders]
           | Ok _ =>
               map email (results response) = validEmails (emails params)
               /\ errors response = omap failureLine (results response)
           end
       end.
Proof.
  destruct (validEmails (emails params)) as [| e1 valid] eqn:E.
  { unfold enrichLeads. rewrite E. eexists _, _. split; [reflexivity |].
    cbn. by repeat split. }
  destruct (resolveProviders env (length t) (chatModelProvider params)
              (embeddingModelProvider params)) as [models | e] eqn:Hmodels.
  - destruct (enrichLeads_resolved env params t models)
      as (outs & added & Hrun & Houts & _); [by rewrite E | done |].
    rewrite Hrun, E in *. eexists _, _. split; [reflexivity |].
    cbn [success results errors]. split; [| done].
    destruct (omap failureLine outs); cbn; by split.
  - unfold enrichLeads. rewrite E. cbn [length Nat.eqb].
    unfold tryCatch, bind, configureModelProviders, perform.
    rewrite Hmodels. unfold ret. eexists _, _. split; [reflexivity |].
    cbn. by repeat split.
Qed.

(** X12: a list in which no entry contains an [@], the empty list among
    them, is refused as a whole, without any effect: the providers are not
    even resolved. *)
Theorem batch_without_at_sign env params t :
  Forall (fun entry => includes "@" entry = false) (emails params) ->
  enrichLeads env params t
  = (Ok {| success := false;
           results := [];
           errors := ["No valid email addresses provided"] |}, t).
Proof.
  intros H. unfold enrichLeads. by rewrite (validEmails_none _ H).
Qed.

Lemma batch_without_at_sign_witness :
  enrichLeads offline (paramsOf ["bad-email"; "   "]) []
  = (Ok {| success := false;
           results := [];
           errors := ["No valid email addresses provided"] |}, []).
Proof.
  apply (batch_without_at_sign offline (paramsOf ["bad-email"; "   "]) []).
  repeat constructor.
Defined.



(** X14: [enrichSingleLead] on an email with an [@], the providers
    resolved: one result, for the trimmed email, and no pause of three
    seconds. *)
Theorem single_lead env entry options t models :
  includes "@" entry = true ->
  resolveProviders env (length t) (chatModelProvider options)
    (embeddingModelProvider options) = Ok models ->
  exists o added,
    enrichSingleLead env entry options t
    = (Ok {| success := (length (omap failureLine [o]) =? 0)%nat;
             results := [o];
             errors := omap failureLine [o] |},
       t ++ ResolveProviders :: added)
    /\ email o = trim entry
    /\ pauses added = 0%nat.
Proof.
  intros Hat Hmodels. unfold enrichSingleLead.
  set (params := {| emails := [entry];
                    chatModelProvider := chatModelProvider options;
                    embeddingModelProvider := embeddingModelProvider options;
                    focusMode := focusMode options;
                    optimizationMode := optimizationMode options;
                    systemInstructions := systemInstructions options |}).
  assert (Hvalid : validEmails (emails params) = [trim entry]).
  { rewrite validEmails_filter. cbn [emails params map List.filter].
    by rewrite (includes_char_trim "@" entry), Hat. }
  destruct (enrichLeads_resolved env params t models)
    as (outs & added & Hrun & Houts & Hcount & _);
    [by rewrite Hvalid | done |].
  rewrite Hvalid in Houts, Hcount.
  destruct outs as [| o [| o' outs]]; try done.
  exists o, added. split; [done |]. split; [by injection Houts |].
  rewrite Hcount. cbn [List.filter]. unfold notLast. cbn [indexOf].
  by rewrite String.eqb_refl.
Qed.

Lemma single_lead_witness :
  exists o added,
    enrichSingleLead offline " a@b.com " (paramsOf []) []
    = (Ok {| success := (length (omap failureLine [o]) =? 0)%nat;
             results := [o];
             errors := omap failureLine [o] |},
       [] ++ ResolveProviders :: added)
    /\ email o = trim " a@b.com "
    /\ pauses added = 0%nat.
Proof.
  apply (single_lead offline " a@b.com " (paramsOf []) []
           (someModel, someModel)); reflexivity.
Defined.

(** ** The validation of a request *)

Lemma rmatch_Bol n s c k :
  rmatch n Bol s c k = if (String.length s =? n)%nat then k s c else None.
Proof. reflexivity. Qed.

Lemma rmatch_Eol n s c k :
  rmatch n Eol s c k = match s with "" => k s c | _ => None end.
Proof. reflexivity. Qed.

Lemma lang_Star_class g p w : lang (Star g (Class p)) w -> allChars p w = true.
Proof.
  remember (Star g (Class p)) as r eqn:Hr. intros H.
  induction H as [| | | | | | g' r' w1 w2 H1 _ H2 IH | | |]; try done.
  injection Hr as -> ->. inversion H1; subst. cbn [allChars String.append].
  rewrite string_app_cons, string_app_nil_l. cbn [allChars].
  rewrite IH by done. by rewrite andb_true_r.
Qed.

Lemma lang_Plus_class g p w :
  lang (Plus g (Class p)) w -> w <> "" /\ allChars p w = true.
Proof.
  unfold Plus. inversion 1 as [| | r1 r2 w1 w2 H1 H2 | | | | | | |]; subst.
  inversion H1; subst. apply lang_Star_class in H2.
  rewrite string_app_cons, string_app_nil_l. cbn [allChars].
  split; [done |]. by rewrite H2, andb_true_r.
Qed.

Lemma iterate_greedy_some n p k w : forall s c,
  allChars p w = true ->
  (forall c', is_Some (k s c')) ->
  is_Some (iterate true (rmatch n (Class p)) k (String.length (w +:+ s))
             (w +:+ s) c).
Proof.
  induction w as [| a w IH]; intros s c Hw Hk.
  - rewrite string_app_nil_l. destruct (String.length s); [apply Hk |].
    cbn [iterate]. destruct (rmatch n (Class p) s c _); [done | apply Hk].
  - cbn [allChars] in Hw. apply andb_true_iff in Hw as [Ha Hw].
    rewrite string_app_cons. cbn [String.length].
    rewrite iterate_class_cons by done. cbn zeta.
    by destruct (IH s c Hw Hk) as [x ->].
Qed.

Lemma plus_greedy_some n p k w s c :
  w <> "" -> allChars p w = true ->
  (forall c', is_Some (k s c')) ->
  is_Some (rmatch n (Plus true (Class p)) (w +:+ s) c k).
Proof.
  intros Hne Hw Hk. destruct w as [| a w]; [done |].
  cbn [allChars] in Hw. apply andb_true_iff in Hw as [Ha Hw].
  unfold Plus. rewrite rmatch_Seq, string_app_cons, rmatch_Class_cons by done.
  rewrite rmatch_Star. by apply iterate_greedy_some.
Qed.

Lemma string_app_length_nil pre s :
  String.length s = String.length (pre +:+ s) -> pre = "".
Proof.
  rewrite string_length_app. destruct pre; [done |]. cbn [String.length]. lia.
Qed.

(** What the pattern of line 71 accepts has the three words. *)
Lemma emailRegex_shape e :
  test emailRegex e = true ->
  exists l m t,
    e = l +:+ "@" +:+ m +:+ "." +:+ t
    /\ plainWord l /\ plainWord m /\ plainWord t.
Proof.
  unfold test, exec, emailRegex, notSpaceAt. cbn [Cat]. fold isPlain.
  destruct (search _ _ e) as [found |] eqn:E; [intros _ | done].
  apply search_inv in E as (pre & w & post & -> & _ & Hm & _).
  rewrite rmatch_Seq, rmatch_Bol in Hm.
  destruct (_ =? _)%nat eqn:Hlen; [| done]. apply Nat.eqb_eq in Hlen.
  apply string_app_length_nil in Hlen as ->. rewrite string_app_nil_l.
  rewrite rmatch_Seq in Hm.
  apply rmatch_sound in Hm as (l & s1 & c1 & -> & Hl & Hm).
  rewrite rmatch_Seq in Hm.
  apply rmatch_sound in Hm as (a & s2 & c2 & -> & Ha & Hm).
  rewrite rmatch_Seq in Hm.
  apply rmatch_sound in Hm as (m & s3 & c3 & -> & Hmid & Hm).
  rewrite rmatch_Seq in Hm.
  apply rmatch_sound in Hm as (d & s4 & c4 & -> & Hd & Hm).
  rewrite rmatch_Seq in Hm.
  apply rmatch_sound in Hm as (t & s5 & c5 & -> & Ht & Hm).
  rewrite rmatch_Eol in Hm. destruct s5; [| done].
  apply lang_Chr in Ha as ->. apply lang_Chr in Hd as ->.
  apply lang_Plus_class in Hl, Hmid, Ht.
  exists l, m, t. rewrite string_app_nil_r. done.
Qed.

(** The matcher finds every text made of the three words, at its start. *)
Lemma emailRegex_complete l m t :
  plainWord l -> plainWord m -> plainWord t ->
  test emailRegex (l +:+ "@" +:+ m +:+ "." +:+ t) = true.
Proof.
  intros [Hl1 Hl2] [Hm1 Hm2] [Ht1 Ht2].
  unfold test, exec, emailRegex, notSpaceAt. cbn [Cat]. fold isPlain.
  assert (Hhere : is_Some
    (rmatch (String.length (l +:+ "@" +:+ m +:+ "." +:+ t))
       (Seq Bol
          (Seq (Plus true (Class isPlain))
             (Seq (Chr "@")
                (Seq (Plus true (Class isPlain))
                   (Seq (Chr ".") (Seq (Plus true (Class isPlain)) Eol))))))
       (l +:+ "@" +:+ m +:+ "." +:+ t) ∅ accept)).
  { rewrite rmatch_Seq, rmatch_Bol, Nat.eqb_refl, rmatch_Seq.
    apply plus_greedy_some; [done | done |]. intros c1.
    rewrite rmatch_Seq.
    change ("@" +:+ m +:+ "." +:+ t) with (String "@" (m +:+ "." +:+ t)).
    unfold Chr at 1. rewrite rmatch_Class_cons by done. rewrite rmatch_Seq.
    apply plus_greedy_some; [done | done |]. intros c2.
    rewrite rmatch_Seq.
    change ("." +:+ t) with (String "." t).
    unfold Chr at 1. rewrite rmatch_Class_cons by done. rewrite rmatch_Seq.
    rewrite <- (string_app_nil_r t).
    apply plus_greedy_some; [done | done |]. intros c3. done. }
  destruct Hhere as [[s' c] Hhere].
  destruct (l +:+ "@" +:+ m +:+ "." +:+ t); cbn [search]; by rewrite Hhere.
Qed.

(** X15: the emails that the pattern of [validateRequest] accepts are
    exactly the texts made of a word, an [@], a word, a dot and a word,
    where a word is one or more characters other than white space and
    [@]; the last two words may contain further dots. *)
Theorem emailRegex_accepts e :
  test emailRegex e = true
  <-> exists l m t,
        e = l +:+ "@" +:+ m +:+ "." +:+ t
        /\ plainWord l /\ plainWord m /\ plainWord t.
Proof.
  split; [apply emailRegex_shape |].
  intros (l & m & t & -> & Hl & Hm & Ht). by apply emailRegex_complete.
Qed.

Lemma unique_spec xs : forall seen,
  NoDup (unique seen xs)
  /\ (forall x, x ∈ unique seen xs <-> x ∈ xs /\ x ∉ seen).
Proof.
  induction xs as [| x xs IH]; intros seen; cbn [unique].
  - split; [constructor |]. intros y. rewrite elem_of_nil. tauto.
  - destruct (decide (x ∈ seen)) as [Hin | Hout].
    + destruct (IH seen) as [Hnd Hmem]. split; [done |].
      intros y. rewrite Hmem, elem_of_cons.
      split; [tauto |]. intros [[-> | ?] ?]; tauto.
    + destruct (IH ({[x]} ∪ seen)) as [Hnd Hmem]. split.
      * constructor; [| done]. rewrite Hmem. intros [_ Hx]. apply Hx.
        apply elem_of_union. left. by apply elem_of_singleton.
      * intros y.
        rewrite !elem_of_cons, Hmem, not_elem_of_union, not_elem_of_singleton.
        destruct (decide (y = x)) as [-> | Hne]; tauto.
Qed.

Lemma filter_nil_Forall {A} (f : A -> bool) l :
  List.filter f l = [] -> Forall (fun x => f x = false) l.
Proof.
  induction l as [| x l IH]; cbn [List.filter]; [constructor |].
  destruct (f x) eqn:E; [done |]. intros H. constructor; auto.
Qed.

Lemma filter_id_Forall {A} (f : A -> bool) l :
  Forall (fun x => f x = true) l -> List.filter f l = l.
Proof.
  induction 1 as [| x l Hx _ IH]; cbn [List.filter]; [done |].
  by rewrite Hx, IH.
Qed.

Lemma normalizeEmails_elem x xs :
  x ∈ normalizeEmails xs
  <-> x <> "" /\ exists s, JStr s ∈ xs /\ x = toLowerCase (trim s).
Proof.
  unfold normalizeEmails.
  rewrite (proj2 (unique_spec _ ∅)), list_elem_of_In, filter_In,
    <- list_elem_of_In, list_elem_of_omap.
  split.
  - intros [[(v & Hv & Hx) Hne] _]. split.
    + intros ->. done.
    + destruct v; try done. injection Hx as <-. eauto.
  - intros (Hne & s & Hs & ->). split; [| apply not_elem_of_empty].
    split; [by exists (JStr s) |].
    apply negb_true_iff. by apply String.eqb_neq.
Qed.

Lemma validateRequest_valid nts body body' emails :
  validateRequest nts body = Valid body' emails ->
  body' = body
  /\ (exists xs, propOf body "emails" = Some (JArr xs)
                 /\ emails = normalizeEmails xs)
  /\ NoDup emails
  /\ (0 < length emails <= 50)%nat
  /\ Forall (fun email => test emailRegex email = true) emails.
Proof.
  unfold validateRequest.
  destruct (negb (truthy nts body)); [done |].
  destruct (negb (truthyProp nts (propOf body "emails"))); [done |].
  destruct (propOf body "emails") as [[| | | | xs |] |]; try done.
  destruct (length xs =? 0)%nat; [done |].
  destruct (length (normalizeEmails xs) =? 0)%nat eqn:H0; [done |].
  destruct (MAX_EMAILS <? length (normalizeEmails xs))%nat eqn:H50; [done |].
  destruct (0 <? length (List.filter _ (normalizeEmails xs)))%nat eqn:Hbad;
    [done |].
  destruct (providerIncomplete nts _); [done |].
  destruct (providerIncomplete nts _); [done |].
  intros [= <- <-]. split; [done |]. split; [eauto |].
  split; [apply unique_spec |].
  apply Nat.eqb_neq in H0. apply Nat.ltb_ge in H50, Hbad.
  unfold MAX_EMAILS in H50. split; [lia |].
  destruct (List.filter _ (normalizeEmails xs)) as [| bad l] eqn:Hf;
    [| cbn [length] in Hbad; lia].
  apply filter_nil_Forall in Hf. eapply Forall_impl; [exact Hf |].
  intros email. cbv beta. by intros ->%negb_false_iff.
Qed.

(** X16: what a request that passes [validateRequest] carries.  Its emails
    are the entries of the array that are strings, trimmed and put in
    lower case, without the empty ones and each once; there is at least
    one and at most fifty of them, and each has the form of the pattern.
    The body is otherwise passed on as it came. *)
Theorem validated_emails nts body body' emails :
  validateRequest nts body = Valid body' emails ->
  body' = body
  /\ NoDup emails
  /\ (0 < length emails <= 50)%nat
  /\ Forall (fun email => test emailRegex email = true) emails
  /\ exists xs,
       propOf body "emails" = Some (JArr xs)
       /\ forall x,
            x ∈ emails
            <-> x <> "" /\ exists s, JStr s ∈ xs /\ x = toLowerCase (trim s).
Proof.
  intros H.
  destruct (validateRequest_valid _ _ _ _ H)
    as (Hbody & (xs & Hxs & ->) & Hnodup & Hlen & Hform).
  split; [done |]. split; [done |]. split; [done |]. split; [done |].
  exists xs. split; [done |]. intros x. apply normalizeEmails_elem.
Qed.

Lemma validated_emails_witness :
  exampleBody = exampleBody
  /\ NoDup ["a@b.com"; "c@d.io"]
  /\ (0 < length ["a@b.com"; "c@d.io"] <= 50)%nat
  /\ Forall (fun email => test emailRegex email = true) ["a@b.com"; "c@d.io"]
  /\ exists xs,
       propOf exampleBody "emails" = Some (JArr xs)
       /\ forall x,
            x ∈ ["a@b.com"; "c@d.io"]
            <-> x <> "" /\ exists s, JStr s ∈ xs /\ x = toLowerCase (trim s).
Proof.
  apply (validated_emails (fun lexeme => lexeme) exampleBody exampleBody
           ["a@b.com"; "c@d.io"]).
  by vm_compute.
Defined.

Lemma isPlain_not_space w :
  allChars isPlain w = true -> allChars (fun c => negb (isSpace c)) w = true.
Proof.
  induction w as [| a w IH]; [done |]. cbn [allChars].
  intros [Ha Hw]%andb_true_iff. rewrite (IH Hw), andb_true_r.
  unfold isPlain in Ha. by destruct (isSpace a).
Qed.

(** An email of that form is its own [trim] and passes the filter of
    [enrichLeads]. *)
Lemma accepted_email_is_kept email :
  test emailRegex email = true ->
  trim email = email /\ includes "@" email = true.
Proof.
  intros (l & m & t & -> & [Hl1 Hl2] & [Hm1 Hm2] & [Ht1 Ht2])%emailRegex_shape.
  split.
  - apply trim_id.
    rewrite !allChars_app, (isPlain_not_space l), (isPlain_not_space m),
      (isPlain_not_space t) by done.
    reflexivity.
  - apply includes_app.
Qed.

Lemma validEmails_accepted emails :
  Forall (fun email => test emailRegex email = true) emails ->
  validEmails (map trim emails) = emails.
Proof.
  intros H. rewrite validEmails_filter.
  assert (Htrim : map trim emails = emails).
  { induction H as [| x l Hx _ IH]; [done |]. cbn [map].
    by rewrite IH, (proj1 (accepted_email_is_kept x Hx)). }
  rewrite !Htrim. apply filter_id_Forall.
  eapply Forall_impl; [exact H |]. intros email Hx.
  apply (accepted_email_is_kept email Hx).
Qed.

(** X17: the route and [enrichLeads] agree on the emails.  The handler
    passes the validated emails, trimmed once more (line 150), and
    [enrichLeads] trims and filters them again: it keeps every one of
    them, so that, the providers resolved, the response has one result for
    each validated email, in order, and the batch pauses once between
    consecutive leads and not after the last one. *)
Theorem route_emails_are_all_processed
    nts body body' validated env params t models :
  validateRequest nts body = Valid body' validated ->
  emails params = map trim validated ->
  resolveProviders env (length t) (chatModelProvider params)
    (embeddingModelProvider params) = Ok models ->
  validEmails (emails params) = validated
  /\ exists response added,
       enrichLeads env params t = (Ok response, t ++ ResolveProviders :: added)
       /\ map email (results response) = validated
       /\ pauses added = (length validated - 1)%nat.
Proof.
  intros Hvalid Hparams Hmodels.
  destruct (validateRequest_valid _ _ _ _ Hvalid)
    as (_ & _ & Hnodup & Hlen & Hform).
  assert (Hkept : validEmails (emails params) = validated).
  { rewrite Hparams. by apply validEmails_accepted. }
  split; [done |].
  destruct (enrichLeads_resolved env params t models)
    as (outs & added & Hrun & Houts & Hcount & _); [| done |].
  { rewrite Hkept. intros ->. cbn [length] in Hlen. lia. }
  rewrite Hkept in Houts, Hcount. rewrite Hrun.
  eexists _, added. split; [reflexivity |]. cbn [results].
  split; [done |]. by rewrite Hcount, notLast_unique.
Qed.

Lemma route_emails_are_all_processed_witness :
  validEmails (emails (paramsOf (map trim ["a@b.com"; "c@d.io"])))
  = ["a@b.com"; "c@d.io"]
  /\ exists response added,
       enrichLeads offline (paramsOf (map trim ["a@b.com"; "c@d.io"])) []
       = (Ok response, [] ++ ResolveProviders :: added)
       /\ map email (results response) = ["a@b.com"; "c@d.io"]
       /\ pauses added = (length ["a@b.com"; "c@d.io"] - 1)%nat.
Proof.
  apply (route_emails_are_all_processed (fun lexeme => lexeme)
           exampleBody exampleBody ["a@b.com"; "c@d.io"] offline
           (paramsOf (map trim ["a@b.com"; "c@d.io"])) []
           (someModel, someModel)).
  - by vm_compute.
  - reflexivity.
  - reflexivity.
Defined.

(** *** The normalization *)

Lemma lowerChar_idem c : lowerChar (lowerChar c) = lowerChar c.
Proof. by destruct c as [[] [] [] [] [] [] [] []]. Qed.

Lemma isSpace_lowerChar c : isSpace (lowerChar c) = isSpace c.
Proof. by destruct c as [[] [] [] [] [] [] [] []]. Qed.

Lemma toLowerCase_idem s : toLowerCase (toLowerCase s) = toLowerCase s.
Proof.
  induction s as [| a s IH]; [done |]. cbn [toLowerCase].
  by rewrite lowerChar_idem, IH.
Qed.

Lemma toLowerCase_app s t :
  toLowerCase (s +:+ t) = toLowerCase s +:+ toLowerCase t.
Proof.
  induction s as [| a s IH]; [done |]. rewrite string_app_cons.
  cbn [toLowerCase]. by rewrite IH, string_app_cons.
Qed.

Lemma toLowerCase_rev s : toLowerCase (String.rev s) = String.rev (toLowerCase s).
Proof.
  induction s as [| a s IH]; [done |]. cbn [toLowerCase].
  by rewrite !rev_cons, toLowerCase_app, IH.
Qed.

Lemma trimStart_toLowerCase s :
  trimStart (toLowerCase s) = toLowerCase (trimStart s).
Proof.
  induction s as [| a s IH]; [done |]. cbn [toLowerCase trimStart].
  rewrite isSpace_lowerChar. by destruct (isSpace a).
Qed.

(** [trim] and [toLowerCase] commute, and [trim] is idempotent. *)
Lemma trim_toLowerCase s : trim (toLowerCase s) = toLowerCase (trim s).
Proof.
  unfold trim, trimEnd.
  by rewrite trimStart_toLowerCase, <- toLowerCase_rev, trimStart_toLowerCase,
    toLowerCase_rev.
Qed.

Lemma headIs_app_l p s t : headIs p (s +:+ t) = false -> headIs p s = false.
Proof. by destruct s. Qed.

Lemma trim_idem s : trim (trim s) = trim s.
Proof.
  unfold trim.
  destruct (trimStart_spec s) as (ws & _ & _ & Hhead).
  set (u := trimStart s) in *.
  destruct (trimEnd_spec u) as (ws' & Hu & _).
  assert (Hh : headIs isSpace (trimEnd u) = false).
  { rewrite Hu in Hhead. by apply headIs_app_l in Hhead. }
  rewrite (trimStart_id _ Hh). unfold trimEnd at 1.
  unfold trimEnd. rewrite rev_involutive.
  destruct (trimStart_spec (String.rev u)) as (_ & _ & _ & Hhead').
  by rewrite (trimStart_id _ Hhead').
Qed.

Lemma unique_id xs : forall seen,
  NoDup xs -> (forall x, x ∈ xs -> x ∉ seen) -> unique seen xs = xs.
Proof.
  induction xs as [| x xs IH]; intros seen Hnd Hseen; [done |].
  apply NoDup_cons in Hnd as [Hx Hnd]. cbn [unique].
  destruct (decide (x ∈ seen)) as [Hin | _].
  - exfalso. apply (Hseen x); [by left | done].
  - f_equal. apply IH; [done |]. intros y Hy.
    rewrite not_elem_of_union, not_elem_of_singleton. split.
    + intros ->. done.
    + apply Hseen. by right.
Qed.

(** X18: the normalization of [validateRequest] is idempotent: the
    normalized emails, submitted again, are normalized to themselves, in
    the same order. *)
Theorem normalization_is_idempotent xs :
  normalizeEmails (map JStr (normalizeEmails xs)) = normalizeEmails xs.
Proof.
  set (l := normalizeEmails xs).
  assert (Hl : forall x, x ∈ l -> x <> "" /\ toLowerCase (trim x) = x).
  { intros x [Hne (s & _ & ->)]%normalizeEmails_elem. split; [done |].
    by rewrite trim_toLowerCase, trim_idem, toLowerCase_idem. }
  assert (Hnd : NoDup l) by apply unique_spec.
  unfold normalizeEmails at 1.
  assert (Hmap : forall l',
    (forall x, x ∈ l' -> x <> "" /\ toLowerCase (trim x) = x) ->
    List.filter (fun e => negb (String.eqb e ""))
      (omap (fun e => match e with
                      | JStr s => Some (toLowerCase (trim s))
                      | _ => None
                      end)
         (map JStr l')) = l').
  { induction l' as [| x l' IH]; intros H; [done |].
    cbn [map omap list_omap]. destruct (H x) as [Hne ->]; [by left |].
    cbn [List.filter]. rewrite (proj2 (String.eqb_neq x "") Hne). cbn [negb].
    f_equal. apply IH. intros y Hy. apply H. by right. }
  rewrite (Hmap l Hl). apply unique_id; [done |].
  intros x _. apply not_elem_of_empty.
Qed.
